(** * scratch-render: the WebGL renderer of [src/index.js]

    A shallow embedding of [RenderWebGL] (constructor, stage geometry, surface
    sizing, the drawable life cycle and the per-frame draw loop) together with
    the properties its specification states about it.

    Conventions.
    - JavaScript numbers are IEEE-754 doubles: [number] is Rocq's primitive
      [float].  A value that may be missing (an omitted argument, an absent
      property of [window]) is a [value].
    - Calls into WebGL and twgl are not interpreted: a frame is the list of
      calls [draw] issues, in order, and a matrix built by [twgl.m4] is the
      call that built it.
    - Module [Drawable] below models [./drawable] after the specification's
      description of it. *)

From Stdlib Require Import Floats QArith.
From stdpp Require Import gmap strings list fin_maps sorting.

(** ** JavaScript values *)

Definition number := float.

Inductive value :=
| undefined
| num (x : number).

(** [ToBoolean]: [undefined], [+0], [-0] and [NaN] are falsy. *)
Definition ToBoolean (v : value) : bool :=
  match v with
  | undefined => false
  | num x => negb (PrimFloat.is_zero x || PrimFloat.is_nan x)
  end.

(** [a || d] with a numeric right operand: the left operand when it is
    truthy (then it is a number), the right one otherwise. *)
Definition or_number (a : value) (d : number) : number :=
  match a with
  | num x => if ToBoolean a then x else d
  | undefined => d
  end.

Notation "a '|||' d" := (or_number a d) (at level 50, left associativity).

Definition Math_abs (x : number) : number := PrimFloat.abs x.

(** What an uncaught JavaScript error leaves of a call. *)
Inductive JSError := TypeError.

Inductive completion (A : Type) :=
| Normal (a : A)
| Throw (e : JSError).
Arguments Normal {A} a.
Arguments Throw {A} e.

Definition bind {A B} (c : completion A) (k : A -> completion B) : completion B :=
  match c with
  | Normal a => k a
  | Throw e => Throw e
  end.

(** ** The host: [window] and the canvas *)

Record Window := {
  devicePixelRatio : value;
  fudge : value
}.

Record Canvas := {
  width : number;
  height : number;
  clientWidth : number;
  clientHeight : number
}.

(** ** twgl and WebGL, uninterpreted *)

(** [twgl.m4]: a matrix is the call that produced it. *)
Inductive Mat4 :=
| m4_identity
| m4_ortho (left right bottom top near far : number).

(** The WebGL constants the renderer can name, by the argument they are
    for. *)
Inductive ClearMask := COLOR_BUFFER_BIT.
Inductive Capability := BLEND.
Inductive DrawMode := TRIANGLES.

Inductive BlendFactor :=
| ZERO
| ONE
| SRC_ALPHA
| ONE_MINUS_SRC_ALPHA
| DST_ALPHA
| ONE_MINUS_DST_ALPHA.

(** The two attribute arrays of the shared quad, as [_createGeometry] lists
    them. *)
Record AttribArray := {
  numComponents : nat;
  data : list number
}.

Record BufferInfo := {
  a_position : AttribArray;
  a_texCoord : AttribArray
}.

Definition DrawableID := nat.

(** ** The Drawable collaborator ([require('./drawable')]) *)

Module Drawable.

(** Modelled from the spec: [./drawable] is absent.  A shader variant is
    "determined by which effects are active": the same effect set always
    yields the same shader identity, so a variant is identified by the set
    of active effect names. *)
Record Shader := ShaderVariant { active_effects : gset string }.

Global Instance Shader_eq_dec : EqDecision Shader.
Proof. solve_decision. Defined.

(** Modelled from the spec: [./drawable] is absent.  The uniform set is
    opaque to the renderer; it is "recomputed from position/rotation/scale
    ... effects and projection", so it is kept as the inputs it was last
    computed from. *)
Record UniformSet := {
  u_position : number * number;
  u_rotation : number;
  u_scale : number;
  u_effects : gmap string number;
  u_projection : Mat4
}.

(** Modelled from the spec: [./drawable] is absent.  The attributes of a
    Drawable in the data model: id, position, rotation, scale, visual
    effects (named numeric parameters), the cached uniform set and the
    dirty flag. *)
Record t := {
  _id : DrawableID;
  position : number * number;
  rotation : number;
  scale : number;
  visualEffects : gmap string number;
  uniformSet : UniformSet;
  dirty : bool
}.

(** Modelled from the spec: [./drawable] is absent.  The argument of
    [updateProperties]: "any subset of position/rotation/scale/effects";
    keys outside these cannot be written down, which is how unknown keys
    are ignored. *)
Record Properties := {
  p_position : option (number * number);
  p_rotation : option number;
  p_scale : option number;
  p_effects : gmap string number
}.

(** Modelled from the spec: [./drawable] is absent.  The process-wide
    registry ("mapping from drawable identity to Drawable instance") and
    the source of fresh ids ("monotonically increasing"). *)
Record Class := {
  _allDrawables : gmap DrawableID t;
  _nextDrawableID : DrawableID
}.

(** Modelled from the spec: [./drawable] is absent.  The registry of a
    process in which no Drawable has been created yet; the first fresh id
    is 0. *)
Definition initial : Class :=
  {| _allDrawables := ∅; _nextDrawableID := 0 |}.

(** Modelled from the spec: [./drawable] is absent.  What [getUniforms]
    recomputes for a drawable under a projection. *)
Definition computeUniforms (projection : Mat4) (d : t) : UniformSet :=
  {| u_position := position d; u_rotation := rotation d; u_scale := scale d;
     u_effects := visualEffects d; u_projection := projection |}.

(** Modelled from the spec: [./drawable] is absent.  [create]: "allocates a
    new Drawable with a fresh unique id, default transform (identity
    position/rotation/scale, no effects), registers it".  The new drawable
    has computed nothing yet, so it starts dirty. *)
Definition new (projection : Mat4) (cls : Class) : t * Class :=
  let d := {| _id := _nextDrawableID cls;
              position := (0%float, 0%float);
              rotation := 0%float;
              scale := 1%float;
              visualEffects := ∅;
              uniformSet :=
                {| u_position := (0%float, 0%float); u_rotation := 0%float;
                   u_scale := 1%float; u_effects := ∅;
                   u_projection := projection |};
              dirty := true |} in
  (d, {| _allDrawables := <[_id d := d]> (_allDrawables cls);
         _nextDrawableID := S (_nextDrawableID cls) |}).

(** Modelled from the spec: [./drawable] is absent.  The id is immutable
    and assigned at creation. *)
Definition getID (d : t) : DrawableID := _id d.

(** Modelled from the spec: [./drawable] is absent.  [get(id)]: "returns
    the Drawable for id, or a not-found signal if absent"; [None] is the
    JavaScript [undefined]. *)
Definition getDrawableByID (drawableID : DrawableID) (cls : Class) : option t :=
  _allDrawables cls !! drawableID.

(** Modelled from the spec: [./drawable] is absent.  A method that changes
    a registered Drawable object changes the one instance the registry
    holds; an object that is no longer registered is not brought back. *)
Definition store (d : t) (cls : Class) : Class :=
  {| _allDrawables := alter (λ _, d) (_id d) (_allDrawables cls);
     _nextDrawableID := _nextDrawableID cls |}.

(** Modelled from the spec: [./drawable] is absent.  [getShader]: "the
    shader variant that corresponds to the current active-effects
    combination". *)
Definition getShader (d : t) : Shader :=
  ShaderVariant (dom (visualEffects d)).

(** Modelled from the spec: [./drawable] is absent.  The lazy recompute of
    [getUniforms]: "if dirty, recomputes ..., then clears dirty". *)
Definition refresh (projection : Mat4) (d : t) : t :=
  if dirty d then
    {| _id := _id d; position := position d; rotation := rotation d;
       scale := scale d; visualEffects := visualEffects d;
       uniformSet := computeUniforms projection d; dirty := false |}
  else d.

(** Modelled from the spec: [./drawable] is absent.  [getUniforms]:
    "returns the (now fresh) uniform set". *)
Definition getUniforms (projection : Mat4) (d : t) (cls : Class)
  : UniformSet * Class :=
  let d' := refresh projection d in (uniformSet d', store d' cls).

(** Modelled from the spec: [./drawable] is absent.  [updateProperties]:
    "merges supplied fields ... into current state; marks dirty; does not
    recompute eagerly". *)
Definition merge (p : Properties) (d : t) : t :=
  {| _id := _id d;
     position := default (position d) (p_position p);
     rotation := default (rotation d) (p_rotation p);
     scale := default (scale d) (p_scale p);
     visualEffects := p_effects p ∪ visualEffects d;
     uniformSet := uniformSet d;
     dirty := true |}.

(** Modelled from the spec: [./drawable] is absent.  See [merge]. *)
Definition updateProperties (p : Properties) (d : t) (cls : Class) : Class :=
  store (merge p d) cls.

(** Modelled from the spec: [./drawable] is absent.  [dispose] releases
    what the drawable owns and "removes it from the registry -- after
    destruction its id must never resolve again". *)
Definition dispose (d : t) (cls : Class) : Class :=
  {| _allDrawables := delete (_id d) (_allDrawables cls);
     _nextDrawableID := _nextDrawableID cls |}.

(** Modelled from the spec: [./drawable] is absent.  See
    [dirtyAllTransforms]. *)
Definition setTransformDirty (d : t) : t :=
  {| _id := _id d; position := position d; rotation := rotation d;
     scale := scale d; visualEffects := visualEffects d;
     uniformSet := uniformSet d; dirty := true |}.

(** Modelled from the spec: [./drawable] is absent.  [markAllDirty]: "sets
    the dirty flag on every registered Drawable". *)
Definition dirtyAllTransforms (cls : Class) : Class :=
  {| _allDrawables := setTransformDirty <$> _allDrawables cls;
     _nextDrawableID := _nextDrawableID cls |}.

End Drawable.

(** ** What a frame is: the calls [draw] issues *)

(** The second argument of [twgl.setUniforms].  The object returned by
    [drawable.getUniforms()] belongs to that drawable: the call keeps the
    owner's id next to the values. *)
Inductive Uniforms :=
| drawable_uniforms (owner : DrawableID) (u : Drawable.UniformSet)
| literal_uniforms (fields : list (string * number)).

(** [programInfo] is the loop's [currentShader] variable, [None] being
    [null]. *)
Inductive GLCall :=
| gl_viewport (x y w h : number)
| gl_clearColor (rgba : list number)
| gl_clear (mask : ClearMask)
| gl_enable (cap : Capability)
| gl_blendFunc (sfactor dfactor : BlendFactor)
| gl_blendFuncSeparate (srcRGB dstRGB srcAlpha dstAlpha : BlendFactor)
| gl_useProgram (programInfo : option Drawable.Shader)
| twgl_setBuffersAndAttributes (programInfo : option Drawable.Shader)
    (bufferInfo : BufferInfo)
| twgl_setUniforms (programInfo : option Drawable.Shader) (uniforms : Uniforms)
| twgl_drawBufferInfo (mode : DrawMode) (bufferInfo : BufferInfo).

(** ** The renderer object *)

Record GLContext := { canvas : Canvas }.

Record Renderer := {
  _gl : GLContext;
  _drawables : list DrawableID;
  _projection : Mat4;
  _bufferInfo : BufferInfo;
  _backgroundColor : list number;
  _xLeft : number;
  _xRight : number;
  _yBottom : number;
  _yTop : number
}.

(** Everything a method of the renderer can read or change: the renderer
    itself, the Drawable class with its registry, and [window]. *)
Record World := {
  this : Renderer;
  Drawables : Drawable.Class;
  window : Window
}.

Definition with_this (r : Renderer) (w : World) : World :=
  {| this := r; Drawables := Drawables w; window := window w |}.

Definition with_Drawables (cls : Drawable.Class) (w : World) : World :=
  {| this := this w; Drawables := cls; window := window w |}.

(** [RenderWebGL.prototype.setBackgroundColor] *)
Definition setBackgroundColor (red green blue alpha : number) (r : Renderer)
  : Renderer :=
  {| _gl := _gl r; _drawables := _drawables r; _projection := _projection r;
     _bufferInfo := _bufferInfo r;
     _backgroundColor := [red; green; blue; alpha];
     _xLeft := _xLeft r; _xRight := _xRight r;
     _yBottom := _yBottom r; _yTop := _yTop r |}.

(** [RenderWebGL.prototype.setStageSize] *)
Definition setStageSize (xLeft xRight yBottom yTop : number) (w : World) : World :=
  let r := this w in
  {| this :=
       {| _gl := _gl r; _drawables := _drawables r;
          _projection :=
            m4_ortho xLeft xRight yBottom yTop (-1)%float 1%float;
          _bufferInfo := _bufferInfo r;
          _backgroundColor := _backgroundColor r;
          _xLeft := xLeft; _xRight := xRight;
          _yBottom := yBottom; _yTop := yTop |};
     Drawables := Drawable.dirtyAllTransforms (Drawables w);
     window := window w |}.

(** [RenderWebGL.prototype.resize].  The canvas keeps the products as
    assigned; [clientWidth] and [clientHeight] are the host's. *)
Definition resize (pixelsWide pixelsTall : number) (w : World) : World :=
  let r := this w in
  let pixelRatio := devicePixelRatio (window w) ||| 1%float in
  let c := canvas (_gl r) in
  with_this
    {| _gl := {| canvas :=
                   {| width := PrimFloat.mul pixelsWide pixelRatio;
                      height := PrimFloat.mul pixelsTall pixelRatio;
                      clientWidth := clientWidth c;
                      clientHeight := clientHeight c |} |};
       _drawables := _drawables r; _projection := _projection r;
       _bufferInfo := _bufferInfo r;
       _backgroundColor := _backgroundColor r;
       _xLeft := _xLeft r; _xRight := _xRight r;
       _yBottom := _yBottom r; _yTop := _yTop r |} w.

(** [RenderWebGL.prototype._createGeometry]: the quad handed to
    [twgl.createBufferInfoFromArrays]. *)
Definition _createGeometry : BufferInfo :=
  {| a_position :=
       {| numComponents := 2;
          data := [(-0.5); (-0.5);
                   0.5; (-0.5);
                   (-0.5); 0.5;
                   (-0.5); 0.5;
                   0.5; (-0.5);
                   0.5; 0.5]%float |};
     a_texCoord :=
       {| numComponents := 2;
          data := [1; 0;
                   0; 0;
                   1; 1;
                   1; 1;
                   0; 0;
                   0; 1]%float |} |}.

(** The two arguments the constructor passes to [resize]: the pixel
    dimensions asked for, or else the extent of the stage. *)
Definition stage_pixels (pixelsWide pixelsTall : value) (r : Renderer)
  : number * number :=
  (pixelsWide ||| Math_abs (PrimFloat.sub (_xRight r) (_xLeft r)),
   pixelsTall ||| Math_abs (PrimFloat.sub (_yTop r) (_yBottom r))).

(** The constructor [RenderWebGL(canvas, xLeft, xRight, yBottom, yTop,
    pixelsWide, pixelsTall)], run in a process whose Drawable class is [cls]
    and whose window is [win].  The background colour and the four bounds
    are assigned by [setBackgroundColor] and [setStageSize] before anything
    reads them; until then they hold [[]] and [nan] here (they are
    [undefined] in JavaScript). *)
Definition RenderWebGL (canvas0 : Canvas)
    (xLeft xRight yBottom yTop pixelsWide pixelsTall : value)
    (cls : Drawable.Class) (win : Window) : World :=
  let this0 :=
    {| _gl := {| canvas := canvas0 |};
       _drawables := [];
       _projection := m4_identity;
       _bufferInfo := _createGeometry;
       _backgroundColor := [];
       _xLeft := nan; _xRight := nan; _yBottom := nan; _yTop := nan |} in
  let w1 := {| this := setBackgroundColor 1%float 1%float 1%float 1%float this0;
               Drawables := cls; window := win |} in
  let w2 := setStageSize (xLeft ||| (-240)%float) (xRight ||| 240%float)
                         (yBottom ||| (-180)%float) (yTop ||| 180%float) w1 in
  resize (stage_pixels pixelsWide pixelsTall (this w2)).1
         (stage_pixels pixelsWide pixelsTall (this w2)).2
         w2.

(** [RenderWebGL.prototype.getProjectionMatrix] *)
Definition getProjectionMatrix (w : World) : Mat4 := _projection (this w).

(** ** Arrays of ids *)

(** [Array.prototype.indexOf]: the first index holding [x], or -1. *)
Fixpoint indexOf_from (x : DrawableID) (l : list DrawableID) (i : Z) : Z :=
  match l with
  | [] => (-1)%Z
  | y :: l' => if decide (y = x) then i else indexOf_from x l' (i + 1)%Z
  end.

Definition indexOf (x : DrawableID) (l : list DrawableID) : Z :=
  indexOf_from x l 0.

(** [array.splice(index, 1)] for [index >= 0]: the element at [index] is
    removed, and nothing is when [index] is past the end. *)
Definition splice1 (index : Z) (l : list DrawableID) : list DrawableID :=
  delete (Z.to_nat index) l.

Definition with_drawables (l : list DrawableID) (r : Renderer) : Renderer :=
  {| _gl := _gl r; _drawables := l; _projection := _projection r;
     _bufferInfo := _bufferInfo r;
     _backgroundColor := _backgroundColor r;
     _xLeft := _xLeft r; _xRight := _xRight r;
     _yBottom := _yBottom r; _yTop := _yTop r |}.

(** ** The drawable life cycle *)

(** [RenderWebGL.prototype.createDrawable].  The new Drawable is handed the
    renderer, whose projection it reads. *)
Definition createDrawable (w : World) : DrawableID * World :=
  let '(drawable, cls) := Drawable.new (_projection (this w)) (Drawables w) in
  let drawableID := Drawable.getID drawable in
  (drawableID,
   {| this := with_drawables (_drawables (this w) ++ [drawableID]) (this w);
      Drawables := cls; window := window w |}).

(** [RenderWebGL.prototype.destroyDrawable].  Calling [dispose] on the
    [undefined] of an id that does not resolve is a [TypeError]. *)
Definition destroyDrawable (drawableID : DrawableID) (w : World)
  : completion (bool * World) :=
  let index := indexOf drawableID (_drawables (this w)) in
  if (0 <=? index)%Z then
    match Drawable.getDrawableByID drawableID (Drawables w) with
    | None => Throw TypeError
    | Some drawable =>
        let cls := Drawable.dispose drawable (Drawables w) in
        Normal (true,
                {| this := with_drawables (splice1 index (_drawables (this w)))
                                          (this w);
                   Drawables := cls; window := window w |})
    end
  else Normal (false, w).

(** [RenderWebGL.prototype.updateDrawableProperties] *)
Definition updateDrawableProperties (drawableID : DrawableID)
    (properties : Drawable.Properties) (w : World) : World :=
  match Drawable.getDrawableByID drawableID (Drawables w) with
  | Some drawable =>
      with_Drawables (Drawable.updateProperties properties drawable (Drawables w)) w
  | None => w
  end.

(** ** The draw loop *)

(** The body of the [for] loop of [draw], over the ids still to visit.
    Calling [getShader] on the [undefined] of an id that does not resolve is
    a [TypeError]; the calls issued before it stay issued. *)
Fixpoint draw_loop (r : Renderer) (win : Window) (ids : list DrawableID)
    (currentShader : option Drawable.Shader) (cls : Drawable.Class)
  : list GLCall * completion Drawable.Class :=
  match ids with
  | [] => ([], Normal cls)
  | drawableID :: rest =>
      match Drawable.getDrawableByID drawableID cls with
      | None => ([], Throw TypeError)
      | Some drawable =>
          let newShader := Drawable.getShader drawable in
          let rebind := bool_decide (currentShader ≠ Some newShader) in
          let currentShader' :=
            if rebind then Some newShader else currentShader in
          let '(uniforms, cls') :=
            Drawable.getUniforms (_projection r) drawable cls in
          let calls :=
            (if rebind then
               [gl_useProgram currentShader';
                twgl_setBuffersAndAttributes currentShader' (_bufferInfo r)]
             else []) ++
            [twgl_setUniforms currentShader'
               (drawable_uniforms (Drawable._id drawable) uniforms);
             twgl_setUniforms currentShader'
               (literal_uniforms [("u_fudge"%string, fudge win ||| 0%float)]);
             twgl_drawBufferInfo TRIANGLES (_bufferInfo r)] in
          let '(more, outcome) := draw_loop r win rest currentShader' cls' in
          (calls ++ more, outcome)
      end
  end.

(** The calls [draw] issues before the loop. *)
Definition draw_prologue (r : Renderer) : list GLCall :=
  let c := canvas (_gl r) in
  [gl_viewport 0%float 0%float (clientWidth c) (clientHeight c);
   gl_clearColor (_backgroundColor r);
   gl_clear COLOR_BUFFER_BIT;
   gl_enable BLEND;
   gl_blendFuncSeparate ONE ONE_MINUS_SRC_ALPHA ZERO ONE].

(** [RenderWebGL.prototype.draw]: the calls issued, and how the method
    completes. *)
Definition draw (w : World) : list GLCall * completion World :=
  let '(calls, outcome) :=
    draw_loop (this w) (window w) (_drawables (this w)) None (Drawables w) in
  (draw_prologue (this w) ++ calls,
   bind outcome (λ cls, Normal (with_Drawables cls w))).

(** ** Sequences of calls on the public interface *)

Inductive Call :=
| call_setBackgroundColor (red green blue alpha : number)
| call_setStageSize (xLeft xRight yBottom yTop : number)
| call_resize (pixelsWide pixelsTall : number)
| call_draw
| call_createDrawable
| call_destroyDrawable (drawableID : DrawableID)
| call_updateDrawableProperties (drawableID : DrawableID)
    (properties : Drawable.Properties).

Definition step (c : Call) (w : World) : completion World :=
  match c with
  | call_setBackgroundColor red green blue alpha =>
      Normal (with_this (setBackgroundColor red green blue alpha (this w)) w)
  | call_setStageSize xLeft xRight yBottom yTop =>
      Normal (setStageSize xLeft xRight yBottom yTop w)
  | call_resize pixelsWide pixelsTall => Normal (resize pixelsWide pixelsTall w)
  | call_draw => (draw w).2
  | call_createDrawable => Normal (createDrawable w).2
  | call_destroyDrawable drawableID =>
      bind (destroyDrawable drawableID w) (λ bw, Normal bw.2)
  | call_updateDrawableProperties drawableID properties =>
      Normal (updateDrawableProperties drawableID properties w)
  end.

Fixpoint run (cs : list Call) (w : World) : completion World :=
  match cs with
  | [] => Normal w
  | c :: cs' => bind (step c w) (run cs')
  end.

(** ** Reading a frame *)

(** The shader programs bound during a frame, in order. *)
Fixpoint shader_binds (calls : list GLCall) : list (option Drawable.Shader) :=
  match calls with
  | [] => []
  | gl_useProgram s :: rest => s :: shader_binds rest
  | _ :: rest => shader_binds rest
  end.

(** The vertex-attribute bindings made during a frame, in order. *)
Fixpoint attribute_binds (calls : list GLCall) : list (option Drawable.Shader) :=
  match calls with
  | [] => []
  | twgl_setBuffersAndAttributes s _ :: rest => s :: attribute_binds rest
  | _ :: rest => attribute_binds rest
  end.

(** The drawables painted by a frame, first painted first: each draw call
    paints the drawable whose uniform set was applied last.  A draw call
    issued before any drawable's uniforms were applied paints none. *)
Fixpoint painted_from (last : option DrawableID) (calls : list GLCall)
  : list DrawableID :=
  match calls with
  | [] => []
  | twgl_setUniforms _ (drawable_uniforms owner _) :: rest =>
      painted_from (Some owner) rest
  | twgl_drawBufferInfo _ _ :: rest =>
      match last with
      | Some owner => owner :: painted_from last rest
      | None => painted_from last rest
      end
  | _ :: rest => painted_from last rest
  end.

Definition painted (calls : list GLCall) : list DrawableID :=
  painted_from None calls.

(** Collapsing runs of equal neighbours: what remains of a list of shader
    variants when a variant is listed only where it differs from the one
    before it. *)
Fixpoint changes (prev : option Drawable.Shader) (l : list Drawable.Shader)
  : list Drawable.Shader :=
  match l with
  | [] => []
  | s :: rest =>
      if decide (prev = Some s) then changes (Some s) rest
      else s :: changes (Some s) rest
  end.

(** ** Blending, as WebGL defines it *)

(** The part of the WebGL state that blending reads.  The blend equation is
    never changed by the renderer and stays the default, [FUNC_ADD]. *)
Record BlendState := {
  blend_enabled : bool;
  blend_srcRGB : BlendFactor;
  blend_dstRGB : BlendFactor;
  blend_srcAlpha : BlendFactor;
  blend_dstAlpha : BlendFactor
}.

Definition gl_apply (s : BlendState) (c : GLCall) : BlendState :=
  match c with
  | gl_enable BLEND =>
      {| blend_enabled := true;
         blend_srcRGB := blend_srcRGB s; blend_dstRGB := blend_dstRGB s;
         blend_srcAlpha := blend_srcAlpha s; blend_dstAlpha := blend_dstAlpha s |}
  | gl_blendFunc sfactor dfactor =>
      {| blend_enabled := blend_enabled s;
         blend_srcRGB := sfactor; blend_dstRGB := dfactor;
         blend_srcAlpha := sfactor; blend_dstAlpha := dfactor |}
  | gl_blendFuncSeparate srcRGB dstRGB srcAlpha dstAlpha =>
      {| blend_enabled := blend_enabled s;
         blend_srcRGB := srcRGB; blend_dstRGB := dstRGB;
         blend_srcAlpha := srcAlpha; blend_dstAlpha := dstAlpha |}
  | _ => s
  end.

(** The blend state in force at each draw call of a frame that starts in
    state [s]. *)
Fixpoint blend_at_draw_calls (s : BlendState) (calls : list GLCall)
  : list BlendState :=
  match calls with
  | [] => []
  | twgl_drawBufferInfo _ _ :: rest => s :: blend_at_draw_calls s rest
  | c :: rest => blend_at_draw_calls (gl_apply s c) rest
  end.

Definition is_gl_blendFunc (c : GLCall) : bool :=
  match c with
  | gl_blendFunc _ _ => true
  | _ => false
  end.

(** One colour channel and the alpha of a fragment or of a pixel, over the
    rationals. *)
Record Pixel := {
  colour : Q;
  alpha : Q
}.

Definition factor (f : BlendFactor) (src dst : Pixel) : Q :=
  match f with
  | ZERO => 0
  | ONE => 1
  | SRC_ALPHA => alpha src
  | ONE_MINUS_SRC_ALPHA => 1 - alpha src
  | DST_ALPHA => alpha dst
  | ONE_MINUS_DST_ALPHA => 1 - alpha dst
  end.

(** [FUNC_ADD]: source times source factor plus destination times
    destination factor, colour and alpha with their own factors. *)
Definition blend (s : BlendState) (src dst : Pixel) : Pixel :=
  if blend_enabled s then
    {| colour := colour src * factor (blend_srcRGB s) src dst
                 + colour dst * factor (blend_dstRGB s) src dst;
       alpha := alpha src * factor (blend_srcAlpha s) src dst
                + alpha dst * factor (blend_dstAlpha s) src dst |}
  else src.

(** The blend state [draw] sets up. *)
Definition draw_blend : BlendState :=
  {| blend_enabled := true;
     blend_srcRGB := ONE; blend_dstRGB := ONE_MINUS_SRC_ALPHA;
     blend_srcAlpha := ZERO; blend_dstAlpha := ONE |}.

(** The specification's words for the result of blending: "color blended as
    straight alpha over destination, alpha accumulated additively". *)
Definition spec_straight_alpha_over (src dst : Pixel) : Q :=
  colour src * alpha src + colour dst * (1 - alpha src).

Definition spec_alpha_accumulated (src dst : Pixel) : Q :=
  alpha src + alpha dst.

(** ** The consistency of a world *)

(** Every Drawable is registered under its own id. *)
Definition well_keyed (cls : Drawable.Class) : Prop :=
  ∀ i d, Drawable.getDrawableByID i cls = Some d → Drawable._id d = i.

(** What the renderer keeps true between calls: the draw list holds exactly
    the registered ids, in increasing order (hence once each), all of them
    below the next fresh id. *)
Record consistent (w : World) : Prop := {
  consistent_keys : well_keyed (Drawables w);
  consistent_live :
    ∀ i, i ∈ _drawables (this w)
         ↔ is_Some (Drawable.getDrawableByID i (Drawables w));
  consistent_sorted : StronglySorted lt (_drawables (this w));
  consistent_fresh :
    ∀ i, i ∈ _drawables (this w) → i < Drawable._nextDrawableID (Drawables w)
}.

(** The worlds a program can be in: a renderer constructed in a process
    that has created no Drawable yet, then any calls on it. *)
Definition reachable (w : World) : Prop :=
  ∃ canvas0 xLeft xRight yBottom yTop pixelsWide pixelsTall win calls,
    run calls (RenderWebGL canvas0 xLeft xRight yBottom yTop
                 pixelsWide pixelsTall Drawable.initial win) = Normal w.

(** What the loop of [draw] can tell of a drawable: its id and its shader
    variant. *)
Definition look (cls : Drawable.Class) (i : DrawableID)
  : option (DrawableID * Drawable.Shader) :=
  (λ d, (Drawable._id d, Drawable.getShader d)) <$> Drawable.getDrawableByID i cls.

(** The shader variants of the listed drawables, in list order. *)
Definition listed_shaders (w : World) : list Drawable.Shader :=
  omap (λ i, snd <$> look (Drawables w) i) (_drawables (this w)).

(** ** The calls of a frame, entry by entry *)

(** What the loop uses of one resolved entry of the draw list. *)
Record Entry := {
  e_id : DrawableID;
  e_shader : Drawable.Shader;
  e_uniforms : Drawable.UniformSet
}.

Fixpoint frame_calls (r : Renderer) (win : Window)
    (currentShader : option Drawable.Shader) (es : list Entry) : list GLCall :=
  match es with
  | [] => []
  | e :: rest =>
      let rebind := bool_decide (currentShader ≠ Some (e_shader e)) in
      let currentShader' :=
        if rebind then Some (e_shader e) else currentShader in
      ((if rebind then
          [gl_useProgram currentShader';
           twgl_setBuffersAndAttributes currentShader' (_bufferInfo r)]
        else []) ++
       [twgl_setUniforms currentShader'
          (drawable_uniforms (e_id e) (e_uniforms e));
        twgl_setUniforms currentShader'
          (literal_uniforms [("u_fudge"%string, fudge win ||| 0%float)]);
        twgl_drawBufferInfo TRIANGLES (_bufferInfo r)]) ++
      frame_calls r win currentShader' rest
  end.

(** The calls the loop of [draw] can issue. *)
Definition is_loop_call (c : GLCall) : bool :=
  match c with
  | gl_useProgram _ | twgl_setBuffersAndAttributes _ _
  | twgl_setUniforms _ _ | twgl_drawBufferInfo _ _ => true
  | _ => false
  end.

(** ** Example worlds *)

Definition example_canvas : Canvas :=
  {| width := 300%float; height := 150%float;
     clientWidth := 300%float; clientHeight := 150%float |}.

Definition example_window (ratio : value) : Window :=
  {| devicePixelRatio := ratio; fudge := undefined |}.

(** [new RenderWebGL(canvas)] on a display of pixel density 2. *)
Definition fresh_world : World :=
  RenderWebGL example_canvas undefined undefined undefined undefined
    undefined undefined Drawable.initial (example_window (num 2%float)).

(** The world after some calls, when none of them throws. *)
Definition after (cs : list Call) (w : World) : World :=
  match run cs w with
  | Normal w' => w'
  | Throw _ => w
  end.

Definition ghost : Drawable.Properties :=
  {| Drawable.p_position := None; Drawable.p_rotation := None;
     Drawable.p_scale := None;
     Drawable.p_effects := {["ghost"%string := 50%float]} |}.

Definition four_drawables : list Call :=
  [call_createDrawable; call_createDrawable; call_createDrawable;
   call_createDrawable; call_updateDrawableProperties 2 ghost].

Definition shaderX : Drawable.Shader := Drawable.ShaderVariant ∅.
Definition shaderY : Drawable.Shader := Drawable.ShaderVariant {["ghost"%string]}.

(** One drawable created through the renderer, then disposed of behind the
    renderer's back, by calling [dispose] on the Drawable itself. *)
Definition stale_world : World :=
  let w := after [call_createDrawable] fresh_world in
  match Drawable.getDrawableByID 0 (Drawables w) with
  | Some d => with_Drawables (Drawable.dispose d (Drawables w)) w
  | None => w
  end.

(** ** More ways of reading a frame and a sequence of calls *)

(** Whether [p] is a program, and the one in use. *)
Definition is_bound (bound p : option Drawable.Shader) : bool :=
  match p with
  | Some s => bool_decide (bound = Some s)
  | None => false
  end.

(** Whether every call of a frame that works on a shader program works on
    the program in use: [gl.useProgram] is given a program, attributes and
    uniforms are set on the program bound last, and nothing is drawn before
    a program is bound.  [bound] is the program in use when the calls
    start, if any. *)
Fixpoint on_bound_program (bound : option Drawable.Shader)
    (calls : list GLCall) : bool :=
  match calls with
  | [] => true
  | gl_useProgram p :: rest =>
      match p with
      | Some _ => on_bound_program p rest
      | None => false
      end
  | twgl_setBuffersAndAttributes p _ :: rest =>
      is_bound bound p && on_bound_program bound rest
  | twgl_setUniforms p _ :: rest =>
      is_bound bound p && on_bound_program bound rest
  | twgl_drawBufferInfo _ _ :: rest =>
      match bound with
      | Some _ => on_bound_program bound rest
      | None => false
      end
  | _ :: rest => on_bound_program bound rest
  end.

(** The number of draw calls of a frame. *)
Fixpoint draw_call_count (calls : list GLCall) : nat :=
  match calls with
  | [] => 0
  | twgl_drawBufferInfo _ _ :: rest => S (draw_call_count rest)
  | _ :: rest => draw_call_count rest
  end.

(** The background colour a sequence of calls leaves, given the one it
    starts from: the colour of the last [setBackgroundColor] among them. *)
Fixpoint last_background (background : list number) (calls : list Call)
  : list number :=
  match calls with
  | [] => background
  | call_setBackgroundColor red green blue alpha :: rest =>
      last_background [red; green; blue; alpha] rest
  | _ :: rest => last_background background rest
  end.

(** The calls that create or destroy a drawable. *)
Definition is_lifecycle_call (c : Call) : bool :=
  match c with
  | call_createDrawable | call_destroyDrawable _ => true
  | _ => false
  end.

(** A window that reports no pixel density. *)
Definition plain_world : World :=
  RenderWebGL example_canvas undefined undefined undefined undefined
    undefined undefined Drawable.initial (example_window undefined).

(** Two changes of background colour around the creation of a drawable and
    a frame. *)
Definition recolouring : list Call :=
  [call_setBackgroundColor 0%float 0%float 0%float 1%float;
   call_createDrawable;
   call_setBackgroundColor 0.5%float 0.25%float 0%float 1%float;
   call_draw].

(** The projection is the orthographic matrix of the stored bounds. *)
Definition projects_bounds (r : Renderer) : Prop :=
  _projection r
  = m4_ortho (_xLeft r) (_xRight r) (_yBottom r) (_yTop r) (-1)%float 1%float.

(** Three drawables, none of them with an effect. *)
Definition three_plain : list Call :=
  [call_createDrawable; call_createDrawable; call_createDrawable].

(** The entries the loop of [draw] makes of a draw list under a registry:
    for each listed id that resolves, the id, the drawable's shader variant
    and its uniform set brought up to date. *)
Definition entries (projection : Mat4) (cls : Drawable.Class)
    (ids : list DrawableID) : list Entry :=
  omap (λ i, (λ d, {| e_id := i;
                      e_shader := Drawable.getShader d;
                      e_uniforms :=
                        Drawable.uniformSet (Drawable.refresh projection d) |})
             <$> Drawable.getDrawableByID i cls) ids.

(** Whether a call that names a buffer names [b]. *)
Definition draws_with (b : BufferInfo) (c : GLCall) : Prop :=
  match c with
  | twgl_setBuffersAndAttributes _ b' => b' = b
  | twgl_drawBufferInfo _ b' => b' = b
  | _ => True
  end.

(** ** Lemmas on arrays of ids *)

Lemma indexOf_from_notin x l i : x ∉ l → indexOf_from x l i = (-1)%Z.
Proof.
  revert i; induction l as [|y l IH]; intros i Hx; simpl; [done|].
  apply not_elem_of_cons in Hx as [Hne Hx].
  destruct (decide (y = x)); [congruence | by apply IH].
Qed.

Lemma indexOf_from_in x l i :
  x ∈ l → ∃ n : nat, indexOf_from x l i = (i + Z.of_nat n)%Z ∧ l !! n = Some x.
Proof.
  revert i; induction l as [|y l IH]; intros i Hx; simpl.
  - by apply elem_of_nil in Hx.
  - destruct (decide (y = x)) as [->|Hne].
    + exists 0. split; [lia | done].
    + apply elem_of_cons in Hx as [->|Hx]; [done|].
      destruct (IH (i + 1)%Z Hx) as (n & Hn & Hl).
      exists (S n). split; [lia | done].
Qed.

Lemma indexOf_found x l : x ∈ l → (0 <=? indexOf x l)%Z = true.
Proof.
  intros Hx. destruct (indexOf_from_in x l 0 Hx) as (n & Hn & _).
  unfold indexOf. rewrite Hn. apply Z.leb_le. lia.
Qed.

Lemma indexOf_missing x l : x ∉ l → (0 <=? indexOf x l)%Z = false.
Proof.
  intros Hx. unfold indexOf. by rewrite indexOf_from_notin.
Qed.

Lemma indexOf_present x l : (0 <=? indexOf x l)%Z = true ↔ x ∈ l.
Proof.
  split; [|apply indexOf_found].
  intros H. destruct (decide (x ∈ l)) as [|Hn]; [done|].
  rewrite (indexOf_missing _ _ Hn) in H. discriminate.
Qed.

(** Removing a listed id from a list without repeats removes that id and
    nothing else. *)
Lemma splice1_indexOf x l :
  x ∈ l → NoDup l →
  ∃ l1 l2, l = l1 ++ (x :: l2) ∧ splice1 (indexOf x l) l = l1 ++ l2
           ∧ (x ∉ l1) ∧ (x ∉ l2).
Proof.
  intros Hx Hnd. destruct (indexOf_from_in x l 0 Hx) as (n & Hn & Hl).
  unfold splice1, indexOf. rewrite Hn, Z.add_0_l, Nat2Z.id.
  exists (take n l), (drop (S n) l).
  pose proof (take_drop_middle l n x Hl) as Hmid.
  split; [done|]. split; [apply delete_take_drop|].
  rewrite <- Hmid in Hnd. apply NoDup_app in Hnd as (_ & Hdisj & Hnd2).
  apply NoDup_cons in Hnd2 as [Hx2 _]. split; [|done].
  intros Hin. apply (Hdisj x Hin). left.
Qed.

Lemma StronglySorted_lt_NoDup (l : list nat) : StronglySorted lt l → NoDup l.
Proof.
  induction 1 as [|x l _ IH Hall]; constructor; [|done].
  intros Hin. rewrite Forall_forall in Hall. specialize (Hall x Hin). lia.
Qed.

(** ** Lemmas on the Drawable registry *)

Lemma refresh_id p d : Drawable._id (Drawable.refresh p d) = Drawable._id d.
Proof. unfold Drawable.refresh. by destruct (Drawable.dirty d). Qed.

Lemma refresh_shader p d :
  Drawable.getShader (Drawable.refresh p d) = Drawable.getShader d.
Proof. unfold Drawable.refresh. by destruct (Drawable.dirty d). Qed.

Lemma lookup_store d cls i :
  Drawable.getDrawableByID i (Drawable.store d cls)
  = if decide (Drawable._id d = i)
    then (λ _, d) <$> Drawable.getDrawableByID (Drawable._id d) cls
    else Drawable.getDrawableByID i cls.
Proof. unfold Drawable.getDrawableByID, Drawable.store; simpl. apply lookup_alter. Qed.

Lemma store_well_keyed d cls : well_keyed cls → well_keyed (Drawable.store d cls).
Proof.
  intros Hk i d'. rewrite lookup_store. case_decide as Hi; [|apply Hk].
  destruct (Drawable.getDrawableByID _ cls); simpl; [|done]. by intros [= <-].
Qed.

Lemma store_is_Some d cls i :
  is_Some (Drawable.getDrawableByID i (Drawable.store d cls))
  ↔ is_Some (Drawable.getDrawableByID i cls).
Proof.
  rewrite lookup_store. case_decide as Hi; [|done]. subst i.
  by rewrite fmap_is_Some.
Qed.

(** Writing back a changed copy of a registered drawable that kept its id
    and its shader variant changes nothing the draw loop looks at. *)
Lemma store_look d0 d cls i0 :
  well_keyed cls →
  Drawable.getDrawableByID i0 cls = Some d0 →
  Drawable._id d = Drawable._id d0 →
  Drawable.getShader d = Drawable.getShader d0 →
  ∀ i, look (Drawable.store d cls) i = look cls i.
Proof.
  intros Hk Hd0 Hid Hsh i. unfold look. rewrite lookup_store.
  case_decide as Hi; [|done]. subst i.
  pose proof (Hk _ _ Hd0) as Hi0. rewrite Hid, Hi0, Hd0. simpl.
  by rewrite Hid, Hsh.
Qed.

Lemma look_is_Some cls i :
  is_Some (look cls i) ↔ is_Some (Drawable.getDrawableByID i cls).
Proof. unfold look. apply fmap_is_Some. Qed.

Lemma look_well_keyed cls i d :
  well_keyed cls → Drawable.getDrawableByID i cls = Some d →
  look cls i = Some (i, Drawable.getShader d).
Proof. intros Hk Hd. unfold look. rewrite Hd. simpl. by rewrite (Hk _ _ Hd). Qed.

(** On a registry that resolves every listed id the loop runs to its end,
    visiting the entries in list order and leaving ids and shader variants
    as they were. *)
Lemma draw_loop_resolved r win ids currentShader cls :
  well_keyed cls →
  (∀ i, i ∈ ids → is_Some (Drawable.getDrawableByID i cls)) →
  ∃ cls' es,
    draw_loop r win ids currentShader cls
    = (frame_calls r win currentShader es, Normal cls')
    ∧ Forall2 (λ i e, e_id e = i ∧ look cls i = Some (i, e_shader e)) ids es
    ∧ well_keyed cls'
    ∧ (∀ i, look cls' i = look cls i)
    ∧ Drawable._nextDrawableID cls' = Drawable._nextDrawableID cls.
Proof.
  revert currentShader cls.
  induction ids as [|i ids IH]; intros currentShader cls Hk Hres.
  - exists cls, []. by repeat split.
  - destruct (Hres i) as [d Hd]; [left|].
    pose proof (Hk _ _ Hd) as Hid.
    set (d' := Drawable.refresh (_projection r) d).
    assert (Hlook : ∀ j, look (Drawable.store d' cls) j = look cls j).
    { apply (store_look d d' cls i Hk Hd);
        [apply refresh_id | apply refresh_shader]. }
    set (cs' := if bool_decide (currentShader ≠ Some (Drawable.getShader d))
                then Some (Drawable.getShader d) else currentShader).
    destruct (IH cs' (Drawable.store d' cls)) as (cls' & es & Hrun & Hes & Hk' & Hl' & Hn').
    { by apply store_well_keyed. }
    { intros j Hj. apply store_is_Some, Hres. by right. }
    exists cls',
      ({| e_id := i; e_shader := Drawable.getShader d;
          e_uniforms := Drawable.uniformSet d' |} :: es).
    split; [|split; [|split; [done|split]]].
    + simpl. rewrite Hd. unfold Drawable.getUniforms. simpl.
      fold d'. fold cs'. rewrite Hrun, Hid. by rewrite <- app_assoc.
    + constructor.
      * split; [done|]. by apply look_well_keyed.
      * eapply Forall2_impl; [exact Hes|]. intros j e [-> He]. split; [done|].
        by rewrite <- Hlook.
    + intros j. by rewrite Hl', Hlook.
    + by rewrite Hn'.
Qed.

(** ** Reading the calls of a frame *)

Lemma shader_binds_frame r win currentShader es :
  shader_binds (frame_calls r win currentShader es)
  = Some <$> changes currentShader (e_shader <$> es).
Proof.
  revert currentShader; induction es as [|e es IH]; intros cs; [done|].
  simpl. case_bool_decide as Hne.
  - destruct (decide (cs = Some (e_shader e))); [done|].
    simpl. by rewrite IH.
  - subst cs.
    destruct (decide (Some (e_shader e) = Some (e_shader e))); [|done].
    simpl. by rewrite IH.
Qed.

Lemma attribute_binds_frame r win currentShader es :
  attribute_binds (frame_calls r win currentShader es)
  = shader_binds (frame_calls r win currentShader es).
Proof.
  revert currentShader; induction es as [|e es IH]; intros cs; [done|].
  simpl. case_bool_decide; simpl; by rewrite IH.
Qed.

Lemma painted_from_frame last r win currentShader es :
  painted_from last (frame_calls r win currentShader es) = e_id <$> es.
Proof.
  revert last currentShader; induction es as [|e es IH]; intros last cs; [done|].
  simpl. case_bool_decide; simpl; by rewrite IH.
Qed.

(** ** The calls preserve consistency *)

Lemma consistent_NoDup w : consistent w → NoDup (_drawables (this w)).
Proof. intros Hc. apply StronglySorted_lt_NoDup, Hc. Qed.

Lemma consistent_setBackgroundColor red green blue alpha w :
  consistent w →
  consistent (with_this (setBackgroundColor red green blue alpha (this w)) w).
Proof. intros [Hk Hl Hs Hf]. by constructor. Qed.

Lemma consistent_resize pixelsWide pixelsTall w :
  consistent w → consistent (resize pixelsWide pixelsTall w).
Proof. intros [Hk Hl Hs Hf]. by constructor. Qed.

Lemma lookup_dirtyAllTransforms cls i :
  Drawable.getDrawableByID i (Drawable.dirtyAllTransforms cls)
  = Drawable.setTransformDirty <$> Drawable.getDrawableByID i cls.
Proof. unfold Drawable.getDrawableByID; simpl. apply lookup_fmap. Qed.

Lemma consistent_setStageSize xLeft xRight yBottom yTop w :
  consistent w → consistent (setStageSize xLeft xRight yBottom yTop w).
Proof.
  intros [Hk Hl Hs Hf]. constructor; simpl; [| |done|done].
  - intros i d. rewrite lookup_dirtyAllTransforms.
    destruct (Drawable.getDrawableByID i (Drawables w)) as [d0|] eqn:Hd; [|done].
    simpl. intros [= <-]. simpl. by apply Hk.
  - intros i. rewrite lookup_dirtyAllTransforms, fmap_is_Some. apply Hl.
Qed.

Lemma consistent_createDrawable w :
  consistent w → consistent (createDrawable w).2.
Proof.
  intros [Hk Hl Hs Hf]. unfold createDrawable; simpl.
  constructor; simpl.
  - intros i d. unfold Drawable.getDrawableByID; simpl.
    rewrite lookup_insert. case_decide as Hi; [by intros [= <-]|apply Hk].
  - intros i. unfold Drawable.getDrawableByID; simpl.
    rewrite elem_of_app, list_elem_of_singleton, lookup_insert_is_Some, Hl.
    unfold Drawable.getDrawableByID. split.
    + intros [H| ->]; [|by left]. destruct H as [d Hd].
      destruct (decide (Drawable._nextDrawableID (Drawables w) = i));
        [by left|right; eauto].
    + intros [->|[_ H]]; [by right|by left].
  - apply StronglySorted_app_2; [|done|repeat constructor].
    intros x1 x2 Hx1 Hx2%list_elem_of_singleton. subst x2. by apply Hf.
  - intros i [Hi|Hi%list_elem_of_singleton]%elem_of_app.
    + specialize (Hf i Hi). lia.
    + subst i. lia.
Qed.

Lemma consistent_updateDrawableProperties drawableID properties w :
  consistent w →
  consistent (updateDrawableProperties drawableID properties w).
Proof.
  intros [Hk Hl Hs Hf]. unfold updateDrawableProperties.
  destruct (Drawable.getDrawableByID drawableID (Drawables w)) as [d|] eqn:Hd;
    [|by constructor].
  constructor; simpl; [| |done|done].
  - by apply store_well_keyed.
  - intros i. unfold Drawable.updateProperties. rewrite store_is_Some. apply Hl.
Qed.

(** What [destroyDrawable] does in a consistent world, by whether the id is
    listed. *)
Lemma destroyDrawable_listed drawableID w :
  consistent w → drawableID ∈ _drawables (this w) →
  ∃ d l1 l2,
    Drawable.getDrawableByID drawableID (Drawables w) = Some d
    ∧ Drawable._id d = drawableID
    ∧ _drawables (this w) = l1 ++ drawableID :: l2
    ∧ (drawableID ∉ l1) ∧ (drawableID ∉ l2)
    ∧ destroyDrawable drawableID w
      = Normal (true,
                {| this := with_drawables (l1 ++ l2) (this w);
                   Drawables := Drawable.dispose d (Drawables w);
                   window := window w |}).
Proof.
  intros Hc Hin. destruct (proj1 (consistent_live w Hc drawableID) Hin) as [d Hd].
  destruct (splice1_indexOf drawableID _ Hin (consistent_NoDup w Hc))
    as (l1 & l2 & Hl & Hsp & Hn1 & Hn2).
  exists d, l1, l2. repeat split; try done.
  - by apply (consistent_keys w Hc).
  - unfold destroyDrawable. by rewrite (indexOf_found _ _ Hin), Hd, Hsp.
Qed.

Lemma destroyDrawable_unlisted drawableID w :
  drawableID ∉ _drawables (this w) →
  destroyDrawable drawableID w = Normal (false, w).
Proof. intros Hn. unfold destroyDrawable. by rewrite (indexOf_missing _ _ Hn). Qed.

Lemma lookup_dispose d cls i :
  Drawable.getDrawableByID i (Drawable.dispose d cls)
  = if decide (Drawable._id d = i) then None else Drawable.getDrawableByID i cls.
Proof. unfold Drawable.getDrawableByID, Drawable.dispose; simpl. apply lookup_delete. Qed.

Lemma consistent_destroyDrawable drawableID w :
  consistent w →
  ∃ b w', destroyDrawable drawableID w = Normal (b, w') ∧ consistent w'.
Proof.
  intros Hc. destruct (decide (drawableID ∈ _drawables (this w))) as [Hin|Hn].
  - destruct (destroyDrawable_listed _ _ Hc Hin)
      as (d & l1 & l2 & Hd & Hid & Hl & Hn1 & Hn2 & Hrun).
    eexists _, _. split; [exact Hrun|].
    destruct Hc as [Hk Hlive Hs Hf]. rewrite Hl in Hlive, Hs, Hf.
    constructor; simpl.
    + intros i d'. rewrite lookup_dispose, Hid. case_decide; [done|apply Hk].
    + intros i. rewrite lookup_dispose, Hid. case_decide as Hi.
      * subst i. split; [|by intros []].
        intros [?|?]%elem_of_app; done.
      * rewrite <- Hlive, !elem_of_app, elem_of_cons. intuition congruence.
    + apply StronglySorted_app in Hs as (H12 & Hs1 & Hs2).
      apply StronglySorted_cons in Hs2 as [_ Hs2].
      apply StronglySorted_app_2; [|done|done].
      intros x1 x2 Hx1 Hx2. apply H12; [done|by right].
    + intros i Hi. apply Hf. rewrite elem_of_app, elem_of_cons.
      apply elem_of_app in Hi. tauto.
  - exists false, w. split; [by apply destroyDrawable_unlisted|done].
Qed.

Lemma listed_shaders_entries cls ids es :
  Forall2 (λ i e, e_id e = i ∧ look cls i = Some (i, e_shader e)) ids es →
  e_id <$> es = ids ∧ omap (λ i, snd <$> look cls i) ids = e_shader <$> es.
Proof.
  induction 1 as [|i e ids es [Hi He] _ [IH1 IH2]]; [done|].
  csimpl. rewrite He. csimpl. by rewrite Hi, IH1, IH2.
Qed.

(** In a consistent world [draw] completes; its calls are the prologue and
    then the calls for the listed drawables, one entry per listed id. *)
Lemma draw_consistent w :
  consistent w →
  ∃ cls' es,
    draw w = (draw_prologue (this w)
                ++ frame_calls (this w) (window w) None es,
              Normal (with_Drawables cls' w))
    ∧ e_id <$> es = _drawables (this w)
    ∧ e_shader <$> es = listed_shaders w
    ∧ (∀ i, look cls' i = look (Drawables w) i)
    ∧ consistent (with_Drawables cls' w).
Proof.
  intros Hc.
  destruct (draw_loop_resolved (this w) (window w) (_drawables (this w)) None
              (Drawables w)) as (cls' & es & Hrun & Hes & Hk' & Hl' & Hn').
  { apply Hc. }
  { intros i. apply (consistent_live w Hc). }
  destruct (listed_shaders_entries _ _ _ Hes) as [Hids Hsh].
  exists cls', es. split; [|split; [done|split; [done|split; [done|]]]].
  - unfold draw. by rewrite Hrun.
  - destruct Hc as [Hk Hlive Hs Hf]. constructor; simpl; [done| |done|].
    + intros i. by rewrite Hlive, <- !look_is_Some, Hl'.
    + intros i Hi. rewrite Hn'. by apply Hf.
Qed.

Lemma consistent_step c w :
  consistent w → ∃ w', step c w = Normal w' ∧ consistent w'.
Proof.
  intros Hc. destruct c; simpl.
  - eexists; split; [done|]. by apply consistent_setBackgroundColor.
  - eexists; split; [done|]. by apply consistent_setStageSize.
  - eexists; split; [done|]. by apply consistent_resize.
  - destruct (draw_consistent w Hc) as (cls' & es & Hrun & _ & _ & _ & Hc').
    rewrite Hrun. simpl. eauto.
  - eexists; split; [done|]. by apply consistent_createDrawable.
  - destruct (consistent_destroyDrawable drawableID w Hc) as (b & w' & Hrun & Hc').
    rewrite Hrun. simpl. eauto.
  - eexists; split; [done|]. by apply consistent_updateDrawableProperties.
Qed.

Lemma consistent_run cs w :
  consistent w → ∃ w', run cs w = Normal w' ∧ consistent w'.
Proof.
  revert w; induction cs as [|c cs IH]; intros w Hc; simpl; [eauto|].
  destruct (consistent_step c w Hc) as (w1 & Hstep & Hc1).
  rewrite Hstep. simpl. by apply IH.
Qed.

Lemma consistent_RenderWebGL canvas0 xLeft xRight yBottom yTop
    pixelsWide pixelsTall win :
  consistent (RenderWebGL canvas0 xLeft xRight yBottom yTop
                pixelsWide pixelsTall Drawable.initial win).
Proof.
  unfold RenderWebGL. apply consistent_resize, consistent_setStageSize.
  constructor; simpl.
  - intros i d. unfold Drawable.getDrawableByID. simpl. by rewrite lookup_empty.
  - intros i. unfold Drawable.getDrawableByID. simpl. rewrite lookup_empty.
    split; [by intros ?%elem_of_nil|by intros []].
  - constructor.
  - by intros i ?%elem_of_nil.
Qed.

Lemma reachable_consistent w : reachable w → consistent w.
Proof.
  intros (canvas0 & a1 & a2 & a3 & a4 & a5 & a6 & win & cs & Hrun).
  destruct (consistent_run cs _
              (consistent_RenderWebGL canvas0 a1 a2 a3 a4 a5 a6 win))
    as (w' & Hrun' & Hc).
  rewrite Hrun in Hrun'. by injection Hrun' as ->.
Qed.

(** ** Further lemmas on the draw loop and on defaults *)

Lemma StronglySorted_lt_lookup (l : list nat) i j a b :
  StronglySorted lt l → l !! i = Some a → l !! j = Some b → i < j → a < b.
Proof.
  intros Hs. revert i j. induction Hs as [|x l Hs IH Hall]; intros i j Ha Hb Hij.
  - by rewrite lookup_nil in Ha.
  - destruct j as [|j]; [lia|]. simpl in Hb. destruct i as [|i].
    + injection Ha as <-. rewrite Forall_forall in Hall.
      apply Hall. by eapply list_elem_of_lookup_2.
    + simpl in Ha. apply (IH i j); [done|done|lia].
Qed.

Lemma draw_loop_unresolved r win ids currentShader cls i :
  i ∈ ids → Drawable.getDrawableByID i cls = None →
  (draw_loop r win ids currentShader cls).2 = Throw TypeError.
Proof.
  revert currentShader cls. induction ids as [|j ids IH]; intros cs cls Hin Hi.
  - by apply elem_of_nil in Hin.
  - simpl. destruct (Drawable.getDrawableByID j cls) as [d|] eqn:Hd; [|done].
    apply elem_of_cons in Hin as [->|Hin]; [congruence|].
    unfold Drawable.getUniforms; simpl.
    match goal with
    | |- (let '(_, _) := draw_loop ?r ?w ?l ?c ?s in _).2 = _ =>
        specialize (IH c s Hin); destruct (draw_loop r w l c s) as [more out]
    end.
    simpl in *. apply IH.
    destruct (Drawable.getDrawableByID i (Drawable.store _ cls)) eqn:Hst; [|done].
    assert (is_Some (Drawable.getDrawableByID i cls)) as [? ?]; [|congruence].
    eapply store_is_Some. by rewrite Hst.
Qed.

Lemma draw_loop_calls r win ids currentShader cls :
  forallb is_loop_call (draw_loop r win ids currentShader cls).1 = true.
Proof.
  revert currentShader cls. induction ids as [|j ids IH]; intros cs cls; [done|].
  simpl. destruct (Drawable.getDrawableByID j cls) as [d|]; [|done].
  unfold Drawable.getUniforms; simpl.
  match goal with
  | |- forallb _ (let '(_, _) := draw_loop ?r ?w ?l ?c ?s in _).1 = _ =>
      specialize (IH c s); destruct (draw_loop r w l c s) as [more out]
  end.
  simpl in *. case_bool_decide; simpl; exact IH.
Qed.

Lemma blend_at_loop_calls s calls :
  forallb is_loop_call calls = true →
  Forall (λ s', s' = s) (blend_at_draw_calls s calls)
  ∧ forallb (λ c, negb (is_gl_blendFunc c)) calls = true.
Proof.
  induction calls as [|c calls IH]; intros Hall; [by split|].
  simpl in Hall. apply andb_true_iff in Hall as [Hc Hall].
  destruct (IH Hall) as [IH1 IH2].
  destruct c; try discriminate; simpl; split; auto.
Qed.

Lemma or_number_falsy a d : ToBoolean a = false → a ||| d = d.
Proof. intros Ha. destruct a; simpl in *; [done|]. by rewrite Ha. Qed.

Lemma or_number_truthy a d :
  ToBoolean a = true → a = num (a ||| d) ∧ PrimFloat.is_zero (a ||| d) = false.
Proof.
  destruct a as [|x]; [done|]. intros Ha. unfold or_number. rewrite Ha.
  split; [done|]. simpl in Ha.
  apply negb_true_iff, orb_false_iff in Ha. apply Ha.
Qed.

Lemma or_number_nonzero a d :
  PrimFloat.is_zero d = false → PrimFloat.is_zero (a ||| d) = false.
Proof.
  intros Hd. destruct (ToBoolean a) eqn:Ha.
  - by apply or_number_truthy.
  - by rewrite or_number_falsy.
Qed.

Lemma or_number_zero a d :
  PrimFloat.is_zero (a ||| d) = true
  ↔ ToBoolean a = false ∧ PrimFloat.is_zero d = true.
Proof.
  destruct (ToBoolean a) eqn:Ha.
  - destruct (or_number_truthy a d Ha) as [_ Hz]. rewrite Hz.
    split; [done|]. by intros [? _].
  - rewrite (or_number_falsy a d Ha). split; [done|]. by intros [_ ?].
Qed.

(** ** The renderer's properties *)

(** C1.  After any sequence of calls on a freshly constructed renderer --
    [createDrawable] and [destroyDrawable], and the other methods as well --
    the draw list holds exactly the ids that resolve in the registry, each of
    them once.  (The registry side is [./drawable], which is modelled from
    the specification.) *)
Theorem draw_list_matches_registry canvas0 xLeft xRight yBottom yTop
    pixelsWide pixelsTall win calls :
  ∃ w, run calls (RenderWebGL canvas0 xLeft xRight yBottom yTop
                    pixelsWide pixelsTall Drawable.initial win) = Normal w
       ∧ NoDup (_drawables (this w))
       ∧ ∀ i, i ∈ _drawables (this w)
              ↔ is_Some (Drawable.getDrawableByID i (Drawables w)).
Proof.
  destruct (consistent_run calls _
              (consistent_RenderWebGL canvas0 xLeft xRight yBottom yTop
                 pixelsWide pixelsTall win)) as (w & Hrun & Hc).
  exists w. split; [done|]. split; [by apply consistent_NoDup|apply Hc].
Qed.

(** C2.  In every world the renderer can be in, [draw] completes and paints
    the listed drawables in exactly draw-list order; [createDrawable] puts
    the new id at the end of the list, and that id is larger than every
    listed one, so the list -- and with it every frame -- is in order of
    creation: of two painted drawables the one created earlier (the smaller
    id) is painted first. *)
Theorem paint_order_is_list_order canvas0 xLeft xRight yBottom yTop
    pixelsWide pixelsTall win calls :
  ∃ w, run calls (RenderWebGL canvas0 xLeft xRight yBottom yTop
                    pixelsWide pixelsTall Drawable.initial win) = Normal w
       ∧ (∃ w', (draw w).2 = Normal w')
       ∧ painted (draw w).1 = _drawables (this w)
       ∧ _drawables (this (createDrawable w).2)
         = _drawables (this w) ++ [(createDrawable w).1]
       ∧ Forall (λ i, i < (createDrawable w).1) (_drawables (this w))
       ∧ ∀ i j a b, painted (draw w).1 !! i = Some a →
                    painted (draw w).1 !! j = Some b →
                    (a < b ↔ i < j).
Proof.
  destruct (consistent_run calls _
              (consistent_RenderWebGL canvas0 xLeft xRight yBottom yTop
                 pixelsWide pixelsTall win)) as (w & Hrun & Hc).
  exists w. split; [done|].
  destruct (draw_consistent w Hc) as (cls' & es & Hdraw & Hids & _ & _ & _).
  assert (Hp : painted (draw w).1 = _drawables (this w)).
  { rewrite Hdraw. unfold painted. simpl.
    by rewrite painted_from_frame. }
  split; [rewrite Hdraw; eauto|]. split; [done|]. split; [done|].
  split.
  { rewrite Forall_forall. intros i Hi. apply (consistent_fresh w Hc i Hi). }
  rewrite Hp. intros i j a b Ha Hb.
  pose proof (consistent_sorted w Hc) as Hs. split.
  - intros Hab. destruct (Nat.lt_trichotomy i j) as [?|[->|Hji]]; [done| |].
    + rewrite Ha in Hb. injection Hb as ->. lia.
    + pose proof (StronglySorted_lt_lookup _ _ _ _ _ Hs Hb Ha Hji). lia.
  - intros Hij. exact (StronglySorted_lt_lookup _ _ _ _ _ Hs Ha Hb Hij).
Qed.

(** C3.  In every world the renderer can be in, the shader programs [draw]
    binds are the listed drawables' shader variants with every run of equal
    neighbours collapsed to its first element: a bind for the first
    drawable and one wherever the variant differs from that of the drawable
    just before.  Each bind of a program comes with the bind of its vertex
    attributes, and the drawables are painted in list order whatever their
    variants.  For variants X, X, Y, X that is three binds: X, Y, X. *)
Theorem shader_rebinding_at_changes canvas0 xLeft xRight yBottom yTop
    pixelsWide pixelsTall win calls :
  ∃ w, run calls (RenderWebGL canvas0 xLeft xRight yBottom yTop
                    pixelsWide pixelsTall Drawable.initial win) = Normal w
       ∧ length (listed_shaders w) = length (_drawables (this w))
       ∧ shader_binds (draw w).1 = Some <$> changes None (listed_shaders w)
       ∧ head (shader_binds (draw w).1) = Some <$> head (listed_shaders w)
       ∧ attribute_binds (draw w).1 = shader_binds (draw w).1
       ∧ painted (draw w).1 = _drawables (this w)
       ∧ ∀ X Y, X ≠ Y → listed_shaders w = [X; X; Y; X] →
                shader_binds (draw w).1 = [Some X; Some Y; Some X].
Proof.
  destruct (consistent_run calls _
              (consistent_RenderWebGL canvas0 xLeft xRight yBottom yTop
                 pixelsWide pixelsTall win)) as (w & Hrun & Hc).
  exists w. split; [done|].
  destruct (draw_consistent w Hc) as (cls' & es & Hdraw & Hids & Hsh & _ & _).
  assert (Hb : shader_binds (draw w).1 = Some <$> changes None (listed_shaders w)).
  { rewrite Hdraw. simpl. by rewrite shader_binds_frame, Hsh. }
  split; [by rewrite <- Hsh, <- Hids, !length_fmap|].
  split; [done|]. split.
  { rewrite Hb. destruct (listed_shaders w) as [|X l]; [done|]. simpl.
    by destruct (decide (None = Some X)). }
  split.
  { rewrite Hdraw. simpl. apply attribute_binds_frame. }
  split.
  { rewrite Hdraw. unfold painted. simpl. by rewrite painted_from_frame. }
  intros X Y HXY HL. rewrite Hb, HL. simpl.
  destruct (decide (Some X = Some X)); [|done].
  destruct (decide (Some X = Some Y)) as [[=]|_]; [done|].
  destruct (decide (Some Y = Some X)) as [[=]|_]; [done|].
  done.
Qed.

(** The renderer with four drawables of variants X, X, Y, X binds a shader
    three times in a frame. *)
Lemma shader_rebinding_XXYX :
  listed_shaders (after four_drawables fresh_world)
  = [shaderX; shaderX; shaderY; shaderX]
  ∧ shader_binds (draw (after four_drawables fresh_world)).1
    = [Some shaderX; Some shaderY; Some shaderX].
Proof.
  destruct (shader_rebinding_at_changes example_canvas undefined undefined
              undefined undefined undefined undefined
              (example_window (num 2%float)) four_drawables)
    as (w & Hrun & _ & _ & _ & _ & _ & Hex).
  assert (Hw : w = after four_drawables fresh_world).
  { unfold after, fresh_world. by rewrite Hrun. }
  subst w. split; [by vm_compute|].
  apply Hex; by vm_compute.
Defined.

(** C4.  In every world the renderer can be in, [destroyDrawable] returns
    [true] exactly when the id is in the draw list.  It then disposes of the
    drawable the registry resolves the id to and takes the id out of the
    list, leaving every other id listed, in place, and registered as before.
    Called again with the same id it returns [false] and changes nothing. *)
Theorem destroyDrawable_reports_removal canvas0 xLeft xRight yBottom yTop
    pixelsWide pixelsTall win calls :
  ∃ w, run calls (RenderWebGL canvas0 xLeft xRight yBottom yTop
                    pixelsWide pixelsTall Drawable.initial win) = Normal w
       ∧ ∀ drawableID,
         ∃ b w1,
           destroyDrawable drawableID w = Normal (b, w1)
           ∧ (b = true ↔ drawableID ∈ _drawables (this w))
           ∧ (if b then
                ∃ d l1 l2,
                  Drawable.getDrawableByID drawableID (Drawables w) = Some d
                  ∧ Drawables w1 = Drawable.dispose d (Drawables w)
                  ∧ _drawables (this w) = l1 ++ drawableID :: l2
                  ∧ _drawables (this w1) = l1 ++ l2
                  ∧ (drawableID ∉ _drawables (this w1))
                  ∧ Drawable.getDrawableByID drawableID (Drawables w1) = None
                  ∧ ∀ j, j ≠ drawableID →
                         Drawable.getDrawableByID j (Drawables w1)
                         = Drawable.getDrawableByID j (Drawables w)
              else w1 = w)
           ∧ destroyDrawable drawableID w1 = Normal (false, w1).
Proof.
  destruct (consistent_run calls _
              (consistent_RenderWebGL canvas0 xLeft xRight yBottom yTop
                 pixelsWide pixelsTall win)) as (w & Hrun & Hc).
  exists w. split; [done|]. intros drawableID.
  destruct (decide (drawableID ∈ _drawables (this w))) as [Hin|Hn].
  - destruct (destroyDrawable_listed _ _ Hc Hin)
      as (d & l1 & l2 & Hd & Hid & Hl & Hn1 & Hn2 & Hdes).
    assert (Hgone : drawableID ∉ l1 ++ l2).
    { intros [?|?]%elem_of_app; done. }
    eexists true, _. split; [exact Hdes|]. split; [done|]. split.
    + exists d, l1, l2. simpl. repeat split; try done.
      * rewrite lookup_dispose, Hid. by case_decide.
      * intros j Hj. rewrite lookup_dispose, Hid. case_decide; congruence.
    + by apply destroyDrawable_unlisted.
  - exists false, w. rewrite (destroyDrawable_unlisted _ _ Hn).
    split; [done|]. split; [split; [done|by intros ?]|]. by split.
Qed.

(** C5, as the code has it.  [updateDrawableProperties] on an id that does
    not resolve changes nothing.  [draw] does not test whether a listed id
    resolves: with such an id in the draw list it ends in a [TypeError].
    That does not happen to a renderer driven through its own methods: no
    listed id fails to resolve there, and [draw] completes, painting every
    listed drawable and skipping none. *)
Theorem unresolved_id_update_noop_draw_throws w i :
  Drawable.getDrawableByID i (Drawables w) = None →
  (∀ properties, updateDrawableProperties i properties w = w)
  ∧ (i ∈ _drawables (this w) → (draw w).2 = Throw TypeError)
  ∧ (reachable w →
     (i ∉ _drawables (this w))
     ∧ (∃ w', (draw w).2 = Normal w')
     ∧ painted (draw w).1 = _drawables (this w)).
Proof.
  intros Hi. split; [|split].
  - intros properties. unfold updateDrawableProperties. by rewrite Hi.
  - intros Hin. unfold draw.
    pose proof (draw_loop_unresolved (this w) (window w) _ None _ i Hin Hi) as Ht.
    destruct (draw_loop _ _ _ _ _) as [more out]. simpl in *. by rewrite Ht.
  - intros Hc%reachable_consistent. split; [|split].
    + intros Hin%(consistent_live w Hc). rewrite Hi in Hin. by destruct Hin.
    + destruct (draw_consistent w Hc) as (cls' & es & Hdraw & _).
      rewrite Hdraw. eauto.
    + destruct (draw_consistent w Hc) as (cls' & es & Hdraw & Hids & _).
      rewrite Hdraw. unfold painted. simpl. by rewrite painted_from_frame.
Qed.

(** With drawable 0 disposed of behind the renderer's back, updating it is
    a no-op and [draw] throws. *)
Lemma unresolved_id_in_stale_world :
  Drawable.getDrawableByID 0 (Drawables stale_world) = None
  ∧ updateDrawableProperties 0 ghost stale_world = stale_world
  ∧ (draw stale_world).2 = Throw TypeError.
Proof.
  assert (Hi : Drawable.getDrawableByID 0 (Drawables stale_world) = None)
    by (by vm_compute).
  destruct (unresolved_id_update_noop_draw_throws stale_world 0 Hi)
    as (Hupd & Hdraw & _).
  split; [done|]. split; [apply Hupd|]. apply Hdraw.
  assert (Hl : _drawables (this stale_world) = [0]) by (by vm_compute).
  rewrite Hl. left.
Defined.

(** C5 as stated fails: [draw] does not skip the listed id 0 that no longer
    resolves.  It issues the calls of the prologue and throws. *)
Lemma draw_does_not_skip_unresolved :
  _drawables (this stale_world) = [0]
  ∧ Drawable.getDrawableByID 0 (Drawables stale_world) = None
  ∧ draw stale_world = (draw_prologue (this stale_world), Throw TypeError).
Proof. by vm_compute. Qed.

(** C6.  [setStageSize] (the specification's [setStageBounds]) stores the
    four bounds and makes the projection the orthographic matrix twgl builds
    for them with near -1 and far 1, which [getProjectionMatrix] then
    returns.  It calls [Drawable.dirtyAllTransforms] once: every registered
    Drawable, and no other, is there afterwards, marked dirty, so that its
    next [getUniforms] is computed from the new projection.  (The effect of
    the broadcast is [./drawable]'s, modelled from the specification.) *)
Theorem setStageSize_projection_and_dirty xLeft xRight yBottom yTop w :
  let w' := setStageSize xLeft xRight yBottom yTop w in
  _xLeft (this w') = xLeft ∧ _xRight (this w') = xRight
  ∧ _yBottom (this w') = yBottom ∧ _yTop (this w') = yTop
  ∧ getProjectionMatrix w'
    = m4_ortho xLeft xRight yBottom yTop (-1)%float 1%float
  ∧ Drawables w' = Drawable.dirtyAllTransforms (Drawables w)
  ∧ (∀ i, is_Some (Drawable.getDrawableByID i (Drawables w'))
          ↔ is_Some (Drawable.getDrawableByID i (Drawables w)))
  ∧ ∀ i d, Drawable.getDrawableByID i (Drawables w') = Some d →
           Drawable.dirty d = true
           ∧ Drawable.u_projection
               (Drawable.getUniforms (getProjectionMatrix w') d (Drawables w')).1
             = m4_ortho xLeft xRight yBottom yTop (-1)%float 1%float.
Proof.
  simpl. do 6 (split; [done|]). split.
  - intros i. by rewrite lookup_dirtyAllTransforms, fmap_is_Some.
  - intros i d. rewrite lookup_dirtyAllTransforms.
    destruct (Drawable.getDrawableByID i (Drawables w)) as [d0|]; [|done].
    simpl. by intros [= <-].
Qed.

(** After four drawables were created, changing the stage bounds leaves
    drawable 2 registered, dirty, and due to take the new projection. *)
Lemma setStageSize_dirties_drawable_2 :
  let w' := setStageSize (-100)%float 100%float (-50)%float 50%float
              (after four_drawables fresh_world) in
  ∃ d, Drawable.getDrawableByID 2 (Drawables w') = Some d
       ∧ Drawable.dirty d = true
       ∧ Drawable.u_projection
           (Drawable.getUniforms (getProjectionMatrix w') d (Drawables w')).1
         = m4_ortho (-100)%float 100%float (-50)%float 50%float
             (-1)%float 1%float.
Proof.
  destruct (setStageSize_projection_and_dirty (-100)%float 100%float
              (-50)%float 50%float (after four_drawables fresh_world))
    as (_ & _ & _ & _ & _ & _ & Hdom & Hdirty).
  assert (Hreg : is_Some (Drawable.getDrawableByID 2
                            (Drawables (after four_drawables fresh_world))))
    by (eexists; vm_compute; reflexivity).
  apply Hdom in Hreg as [d Hd]. exists d. split; [exact Hd|].
  exact (Hdirty 2 d Hd).
Defined.

(** C7, as the code has it.  [setStageSize] takes any four numbers without
    raising and stores them as passed, with no clamping: the extent it
    keeps is the extent it was given, zero included, and the projection is
    built by [twgl.m4.ortho] from the bounds as passed. *)
Theorem setStageSize_stores_bounds_unclamped xLeft xRight yBottom yTop w :
  let w' := setStageSize xLeft xRight yBottom yTop w in
  step (call_setStageSize xLeft xRight yBottom yTop) w = Normal w'
  ∧ _xLeft (this w') = xLeft ∧ _xRight (this w') = xRight
  ∧ _yBottom (this w') = yBottom ∧ _yTop (this w') = yTop
  ∧ PrimFloat.sub (_xRight (this w')) (_xLeft (this w'))
    = PrimFloat.sub xRight xLeft
  ∧ PrimFloat.sub (_yTop (this w')) (_yBottom (this w'))
    = PrimFloat.sub yTop yBottom
  ∧ _projection (this w')
    = m4_ortho xLeft xRight yBottom yTop (-1)%float 1%float.
Proof. by repeat split. Qed.

(** C7 as stated fails: bounds of zero width and zero height are stored as
    they come, and the stage extent kept is exactly zero both ways. *)
Lemma setStageSize_keeps_zero_extent :
  let w' := setStageSize 7%float 7%float 3%float 3%float fresh_world in
  _xLeft (this w') = 7%float ∧ _xRight (this w') = 7%float
  ∧ _yBottom (this w') = 3%float ∧ _yTop (this w') = 3%float
  ∧ PrimFloat.sub (_xRight (this w')) (_xLeft (this w')) = 0%float
  ∧ PrimFloat.sub (_yTop (this w')) (_yBottom (this w')) = 0%float
  ∧ _projection (this w')
    = m4_ortho 7%float 7%float 3%float 3%float (-1)%float 1%float.
Proof. by vm_compute. Qed.

(** C8.  On a host that reports a pixel density (a number other than zero
    and NaN), [resize] sets the canvas's backing-store width and height to
    the requested dimensions times that density. *)
Theorem resize_scales_by_pixel_density pixelsWide pixelsTall ratio w :
  devicePixelRatio (window w) = num ratio →
  ToBoolean (num ratio) = true →
  width (canvas (_gl (this (resize pixelsWide pixelsTall w))))
  = PrimFloat.mul pixelsWide ratio
  ∧ height (canvas (_gl (this (resize pixelsWide pixelsTall w))))
    = PrimFloat.mul pixelsTall ratio.
Proof.
  intros Hr Ht. unfold resize; simpl. rewrite Hr.
  unfold or_number. by rewrite Ht.
Qed.

(** [resize(480, 360)] at pixel density 2 gives a backing store of 960 by
    720. *)
Lemma resize_480_360_at_density_2 :
  devicePixelRatio (window fresh_world) = num 2%float
  ∧ ToBoolean (num 2%float) = true
  ∧ width (canvas (_gl (this (resize 480%float 360%float fresh_world))))
    = 960%float
  ∧ height (canvas (_gl (this (resize 480%float 360%float fresh_world))))
    = 720%float.
Proof.
  split; [done|]. split; [done|].
  destruct (resize_scales_by_pixel_density 480%float 360%float 2%float
              fresh_world eq_refl eq_refl) as [Hw Hh].
  by rewrite Hw, Hh.
Defined.

(** C9, as the code has it.  Every [draw], in whatever blend state the
    frame starts, enables blending and sets separate factors -- [ONE] and
    [ONE_MINUS_SRC_ALPHA] for colour, [ZERO] and [ONE] for alpha -- before
    the first draw call, so that every draw call of the frame is made under
    them; [gl.blendFunc] is never called.  Under these factors the blended
    colour is the source colour plus the destination colour scaled by one
    minus the source alpha (source-over for premultiplied colour), and the
    blended alpha is the destination's alpha, unchanged. *)
Theorem draw_blends_premultiplied_keeps_alpha w s0 :
  (∃ calls, (draw w).1
            = [gl_viewport 0%float 0%float
                 (clientWidth (canvas (_gl (this w))))
                 (clientHeight (canvas (_gl (this w))));
               gl_clearColor (_backgroundColor (this w));
               gl_clear COLOR_BUFFER_BIT;
               gl_enable BLEND;
               gl_blendFuncSeparate ONE ONE_MINUS_SRC_ALPHA ZERO ONE]
              ++ calls
            ∧ forallb is_loop_call calls = true)
  ∧ Forall (λ s, s = draw_blend) (blend_at_draw_calls s0 (draw w).1)
  ∧ forallb (λ c, negb (is_gl_blendFunc c)) (draw w).1 = true
  ∧ ∀ src dst,
      (colour (blend draw_blend src dst)
       == colour src + colour dst * (1 - alpha src))%Q
      ∧ (alpha (blend draw_blend src dst) == alpha dst)%Q.
Proof.
  pose proof (draw_loop_calls (this w) (window w) (_drawables (this w)) None
                (Drawables w)) as Hloop.
  unfold draw. destruct (draw_loop _ _ _ _ _) as [calls out]. simpl in Hloop.
  destruct (blend_at_loop_calls draw_blend calls Hloop) as [Hb Hn].
  split; [by exists calls|]. split; [exact Hb|]. split; [exact Hn|].
  intros src dst. simpl. split; ring.
Qed.

(** C9 as stated fails.  With source and destination both of colour 1/2
    and alpha 1/2, the frame's blend state gives colour 3/4 and alpha 1/2,
    where straight alpha over the destination gives colour 1/2 and additive
    accumulation gives alpha 1. *)
Lemma draw_blend_is_not_straight_alpha_nor_additive :
  let src := {| colour := 1 # 2; alpha := 1 # 2 |} in
  let dst := {| colour := 1 # 2; alpha := 1 # 2 |} in
  blend_at_draw_calls draw_blend (draw (after four_drawables fresh_world)).1
  = [draw_blend; draw_blend; draw_blend; draw_blend]
  ∧ Qred (colour (blend draw_blend src dst)) = (3 # 4)%Q
  ∧ Qred (spec_straight_alpha_over src dst) = (1 # 2)%Q
  ∧ Qred (alpha (blend draw_blend src dst)) = (1 # 2)%Q
  ∧ Qred (spec_alpha_accumulated src dst) = 1%Q.
Proof. by vm_compute. Qed.

(** C10, as the code has it.  The constructor replaces every falsy bound or
    pixel-dimension argument -- a missing one, NaN, and an explicit 0 alike
    -- by its default: -240, 240, -180, 180 for the bounds and the absolute
    difference of the horizontal, respectively vertical, bounds for the
    pixel dimensions.  So no stage bound is ever zero.  A pixel dimension
    passed on to [resize] is zero exactly when it was not given (or falsy)
    and the two bounds it defaults from have a difference of zero. *)
Theorem constructor_defaults canvas0 xLeft xRight yBottom yTop
    pixelsWide pixelsTall cls win :
  let w := RenderWebGL canvas0 xLeft xRight yBottom yTop
             pixelsWide pixelsTall cls win in
  let pixels := stage_pixels pixelsWide pixelsTall (this w) in
  (_xLeft (this w) = xLeft ||| (-240)%float
   ∧ _xRight (this w) = xRight ||| 240%float
   ∧ _yBottom (this w) = yBottom ||| (-180)%float
   ∧ _yTop (this w) = yTop ||| 180%float)
  ∧ (∀ a d, ToBoolean a = false → a ||| d = d)
  ∧ (∀ d, num 0%float ||| d = d)
  ∧ (PrimFloat.is_zero (_xLeft (this w)) = false
     ∧ PrimFloat.is_zero (_xRight (this w)) = false
     ∧ PrimFloat.is_zero (_yBottom (this w)) = false
     ∧ PrimFloat.is_zero (_yTop (this w)) = false)
  ∧ pixels.1
    = pixelsWide ||| Math_abs (PrimFloat.sub (_xRight (this w)) (_xLeft (this w)))
  ∧ pixels.2
    = pixelsTall ||| Math_abs (PrimFloat.sub (_yTop (this w)) (_yBottom (this w)))
  ∧ width (canvas (_gl (this w)))
    = PrimFloat.mul pixels.1 (devicePixelRatio win ||| 1%float)
  ∧ height (canvas (_gl (this w)))
    = PrimFloat.mul pixels.2 (devicePixelRatio win ||| 1%float)
  ∧ (PrimFloat.is_zero pixels.1 = true
     ↔ ToBoolean pixelsWide = false
       ∧ PrimFloat.is_zero
           (Math_abs (PrimFloat.sub (_xRight (this w)) (_xLeft (this w)))) = true)
  ∧ (PrimFloat.is_zero pixels.2 = true
     ↔ ToBoolean pixelsTall = false
       ∧ PrimFloat.is_zero
           (Math_abs (PrimFloat.sub (_yTop (this w)) (_yBottom (this w)))) = true).
Proof.
  simpl. split; [by repeat split|]. split; [apply or_number_falsy|].
  split; [done|]. split.
  { repeat split; by apply or_number_nonzero. }
  do 4 (split; [done|]). split; apply or_number_zero.
Qed.

(** C10 as stated fails: a renderer constructed with equal left and right
    bounds and no pixel width gets a pixel width of zero, and a canvas zero
    pixels wide. *)
Lemma constructor_zero_pixel_width :
  let w := RenderWebGL example_canvas (num 100%float) (num 100%float)
             undefined undefined undefined undefined
             Drawable.initial (example_window (num 2%float)) in
  _xLeft (this w) = 100%float ∧ _xRight (this w) = 100%float
  ∧ (stage_pixels undefined undefined (this w)).1 = 0%float
  ∧ width (canvas (_gl (this w))) = 0%float.
Proof. by vm_compute. Qed.

(** ** Further properties of the renderer *)

Lemma on_bound_program_loop r win ids currentShader cls :
  on_bound_program currentShader (draw_loop r win ids currentShader cls).1 = true.
Proof.
  revert currentShader cls. induction ids as [|j ids IH]; intros cs cls; [done|].
  simpl. destruct (Drawable.getDrawableByID j cls) as [d|]; [|done].
  unfold Drawable.getUniforms; simpl.
  match goal with
  | |- on_bound_program _ (let '(_, _) := draw_loop ?r ?w ?l ?c ?s in _).1 = _ =>
      specialize (IH c s); destruct (draw_loop r w l c s) as [more out]
  end.
  simpl in *. case_bool_decide as Hcs; simpl.
  - unfold is_bound. by rewrite !bool_decide_eq_true_2.
  - subst cs. unfold is_bound. by rewrite !bool_decide_eq_true_2.
Qed.

(** X1.  In every frame, of whatever world, each call that works on a
    shader program works on the program in use: [draw] hands a program to
    [gl.useProgram], sets attributes and uniforms on the program it bound
    last, and issues no draw call before it has bound one.  This holds of
    the calls issued before a [TypeError] as well. *)
Theorem draw_works_on_bound_program w :
  on_bound_program None (draw w).1 = true.
Proof.
  pose proof (on_bound_program_loop (this w) (window w) (_drawables (this w))
                None (Drawables w)) as Hloop.
  unfold draw. destruct (draw_loop _ _ _ _ _) as [calls out]. exact Hloop.
Qed.

Lemma indexOf_from_first x l i :
  x ∈ l →
  ∃ l1 l2, l = l1 ++ x :: l2 ∧ (x ∉ l1)
           ∧ indexOf_from x l i = (i + Z.of_nat (length l1))%Z.
Proof.
  revert i; induction l as [|y l IH]; intros i Hx.
  - by apply elem_of_nil in Hx.
  - simpl. destruct (decide (y = x)) as [->|Hne].
    + exists [], l. split; [done|]. split; [apply not_elem_of_nil|simpl; lia].
    + apply elem_of_cons in Hx as [->|Hx]; [done|].
      destruct (IH (i + 1)%Z Hx) as (l1 & l2 & -> & Hn1 & Hi).
      exists (y :: l1), l2. split; [done|]. split.
      * apply not_elem_of_cons. split; [congruence|done].
      * rewrite Hi. simpl length. lia.
Qed.

(** X2.  [destroyDrawable] in any world, consistent or not.  It returns
    [true] only for a listed id and then has removed one entry of the draw
    list, the first one holding the id, whether or not the id is listed
    again further on; it returns [false] only for an id that is not listed
    and then has changed nothing; and it throws exactly when the id is
    listed but does not resolve in the registry. *)
Theorem destroyDrawable_in_any_world w drawableID :
  match destroyDrawable drawableID w with
  | Normal (b, w') =>
      if b then
        ∃ d l1 l2,
          Drawable.getDrawableByID drawableID (Drawables w) = Some d
          ∧ _drawables (this w) = l1 ++ drawableID :: l2
          ∧ (drawableID ∉ l1)
          ∧ _drawables (this w') = l1 ++ l2
          ∧ length (_drawables (this w')) + 1 = length (_drawables (this w))
          ∧ Drawables w' = Drawable.dispose d (Drawables w)
      else (drawableID ∉ _drawables (this w)) ∧ w' = w
  | Throw e =>
      drawableID ∈ _drawables (this w)
      ∧ Drawable.getDrawableByID drawableID (Drawables w) = None
      ∧ e = TypeError
  end.
Proof.
  unfold destroyDrawable.
  destruct (decide (drawableID ∈ _drawables (this w))) as [Hin|Hn].
  - rewrite (indexOf_found _ _ Hin).
    destruct (Drawable.getDrawableByID drawableID (Drawables w)) as [d|] eqn:Hd;
      [|done].
    destruct (indexOf_from_first drawableID _ 0 Hin) as (l1 & l2 & Hl & Hn1 & Hi).
    exists d, l1, l2. simpl. unfold splice1, indexOf.
    rewrite Hi, Z.add_0_l, Nat2Z.id, Hl, delete_middle, !length_app. simpl.
    repeat split; try done. lia.
  - by rewrite (indexOf_missing _ _ Hn).
Qed.

(** X3.  On a host whose [window.devicePixelRatio] is missing, zero or NaN,
    [resize] falls back to a pixel ratio of 1: the canvas gets the requested
    dimensions times 1. *)
Theorem resize_without_pixel_density pixelsWide pixelsTall w :
  ToBoolean (devicePixelRatio (window w)) = false →
  width (canvas (_gl (this (resize pixelsWide pixelsTall w))))
  = PrimFloat.mul pixelsWide 1%float
  ∧ height (canvas (_gl (this (resize pixelsWide pixelsTall w))))
    = PrimFloat.mul pixelsTall 1%float.
Proof.
  intros Hr. unfold resize; simpl. by rewrite (or_number_falsy _ _ Hr).
Qed.

(** [resize(480, 360)] without a reported pixel density gives a backing
    store of 480 by 360. *)
Lemma resize_480_360_without_density :
  ToBoolean (devicePixelRatio (window plain_world)) = false
  ∧ width (canvas (_gl (this (resize 480%float 360%float plain_world))))
    = 480%float
  ∧ height (canvas (_gl (this (resize 480%float 360%float plain_world))))
    = 360%float.
Proof.
  split; [done|].
  destruct (resize_without_pixel_density 480%float 360%float plain_world
              eq_refl) as [Hw Hh].
  by rewrite Hw, Hh.
Defined.

Lemma draw_this w w' :
  (draw w).2 = Normal w' → this w' = this w ∧ window w' = window w.
Proof.
  unfold draw. destruct (draw_loop _ _ _ _ _) as [calls [cls|e]]; simpl; [|done].
  by intros [= <-].
Qed.

Lemma step_projects_bounds c w w' :
  step c w = Normal w' → projects_bounds (this w) → projects_bounds (this w').
Proof.
  destruct c; simpl.
  - by intros [= <-].
  - by intros [= <-].
  - by intros [= <-].
  - intros [-> _]%draw_this. done.
  - by intros [= <-].
  - unfold destroyDrawable. destruct (0 <=? _)%Z; simpl.
    + destruct (Drawable.getDrawableByID _ _); simpl; [|done]. by intros [= <-].
    + by intros [= <-].
  - unfold updateDrawableProperties.
    destruct (Drawable.getDrawableByID _ _); by intros [= <-].
Qed.

Lemma step_background c w w' :
  step c w = Normal w' →
  _backgroundColor (this w') = last_background (_backgroundColor (this w)) [c].
Proof.
  destruct c; simpl.
  - by intros [= <-].
  - by intros [= <-].
  - by intros [= <-].
  - intros [-> _]%draw_this. done.
  - by intros [= <-].
  - unfold destroyDrawable. destruct (0 <=? _)%Z; simpl.
    + destruct (Drawable.getDrawableByID _ _); simpl; [|done]. by intros [= <-].
    + by intros [= <-].
  - unfold updateDrawableProperties.
    destruct (Drawable.getDrawableByID _ _); by intros [= <-].
Qed.

Lemma last_background_length background calls :
  length background = 4 → length (last_background background calls) = 4.
Proof.
  revert background. induction calls as [|c calls IH]; intros bg Hbg; [done|].
  destruct c; simpl; by apply IH.
Qed.

(** X4.  Whatever calls are made on a renderer, in whatever order, and
    whatever the registry held when it was constructed, its projection
    stays the orthographic matrix (near -1, far 1) of the bounds it holds:
    the constructor sets both, and nothing but [setStageSize], which sets
    both again, touches either. *)
Theorem projection_follows_bounds canvas0 xLeft xRight yBottom yTop
    pixelsWide pixelsTall cls win calls w :
  run calls (RenderWebGL canvas0 xLeft xRight yBottom yTop
               pixelsWide pixelsTall cls win) = Normal w →
  getProjectionMatrix w
  = m4_ortho (_xLeft (this w)) (_xRight (this w))
             (_yBottom (this w)) (_yTop (this w)) (-1)%float 1%float.
Proof.
  assert (Hrun : ∀ cs w0 w1, run cs w0 = Normal w1 →
                 projects_bounds (this w0) → projects_bounds (this w1)).
  { induction cs as [|c cs IH]; intros w0 w1; simpl.
    - by intros [= <-].
    - destruct (step c w0) as [w0'|] eqn:Hstep; simpl; [|done].
      intros Hcs H0. apply (IH _ _ Hcs). by apply (step_projects_bounds c w0). }
  intros H. by apply (Hrun _ _ _ H).
Qed.

(** After custom bounds, four drawables and an update the projection is
    that of the custom bounds. *)
Lemma projection_follows_bounds_example :
  getProjectionMatrix
    (after (call_setStageSize (-100)%float 100%float (-50)%float 50%float
              :: four_drawables) fresh_world)
  = m4_ortho (-100)%float 100%float (-50)%float 50%float (-1)%float 1%float.
Proof.
  rewrite (projection_follows_bounds example_canvas undefined undefined
             undefined undefined undefined undefined Drawable.initial
             (example_window (num 2%float))
             (call_setStageSize (-100)%float 100%float (-50)%float 50%float
                :: four_drawables)
             (after (call_setStageSize (-100)%float 100%float (-50)%float
                       50%float :: four_drawables) fresh_world));
    by vm_compute.
Defined.

(** X5.  The background colour of a renderer is white until
    [setBackgroundColor] is called and from then on the colour of the last
    such call, whatever other calls come in between; it always has four
    components, and the next frame clears the canvas with it: the second
    and third calls of the frame are [gl.clearColor] with that colour and
    [gl.clear(COLOR_BUFFER_BIT)]. *)
Theorem background_is_last_set canvas0 xLeft xRight yBottom yTop
    pixelsWide pixelsTall cls win calls w :
  run calls (RenderWebGL canvas0 xLeft xRight yBottom yTop
               pixelsWide pixelsTall cls win) = Normal w →
  let white := [1%float; 1%float; 1%float; 1%float] in
  _backgroundColor (this w) = last_background white calls
  ∧ length (_backgroundColor (this w)) = 4
  ∧ (draw w).1 !! 1 = Some (gl_clearColor (last_background white calls))
  ∧ (draw w).1 !! 2 = Some (gl_clear COLOR_BUFFER_BIT).
Proof.
  assert (Hrun : ∀ cs w0 w1, run cs w0 = Normal w1 →
                 _backgroundColor (this w1)
                 = last_background (_backgroundColor (this w0)) cs).
  { induction cs as [|c cs IH]; intros w0 w1; simpl.
    - by intros [= <-].
    - destruct (step c w0) as [w0'|] eqn:Hstep; simpl; [|done].
      intros Hcs. rewrite (IH _ _ Hcs), (step_background _ _ _ Hstep).
      by destruct c. }
  intros H white. pose proof (Hrun _ _ _ H) as Hbg. simpl in Hbg.
  split; [done|]. split; [rewrite Hbg; by apply last_background_length|].
  unfold draw. destruct (draw_loop _ _ _ _ _) as [cs out]. simpl.
  by rewrite Hbg.
Qed.

(** Black, then a drawable, then orange, then a frame: the frame after
    these clears with orange. *)
Lemma background_is_last_set_example :
  run recolouring fresh_world = Normal (after recolouring fresh_world)
  ∧ (draw (after recolouring fresh_world)).1 !! 1
    = Some (gl_clearColor [0.5%float; 0.25%float; 0%float; 1%float]).
Proof.
  assert (Hrun : run recolouring fresh_world
                 = Normal (after recolouring fresh_world)) by (by vm_compute).
  split; [exact Hrun|].
  destruct (background_is_last_set example_canvas undefined undefined
              undefined undefined undefined undefined Drawable.initial
              (example_window (num 2%float)) recolouring _ Hrun)
    as (_ & _ & Hclear & _).
  exact Hclear.
Defined.

Lemma refresh_refresh p d :
  Drawable.refresh p (Drawable.refresh p d) = Drawable.refresh p d.
Proof.
  unfold Drawable.refresh. destruct (Drawable.dirty d) eqn:Hd; simpl; [done|].
  by rewrite Hd.
Qed.

(** On distinct ids that all resolve, the loop visits the entries of the
    list as the registry had them at the start, and leaves every visited
    drawable brought up to date and every other one as it was. *)
Lemma draw_loop_entries r win ids currentShader cls :
  well_keyed cls → NoDup ids →
  (∀ i, i ∈ ids → is_Some (Drawable.getDrawableByID i cls)) →
  ∃ cls',
    draw_loop r win ids currentShader cls
    = (frame_calls r win currentShader (entries (_projection r) cls ids),
       Normal cls')
    ∧ ∀ i, Drawable.getDrawableByID i cls'
           = if decide (i ∈ ids)
             then Drawable.refresh (_projection r) <$> Drawable.getDrawableByID i cls
             else Drawable.getDrawableByID i cls.
Proof.
  revert currentShader cls.
  induction ids as [|i ids IH]; intros cs cls Hk Hnd Hres.
  - exists cls. split; [done|]. intros i. case_decide as Hi; [|done].
    by apply elem_of_nil in Hi.
  - apply NoDup_cons in Hnd as [Hi Hnd].
    destruct (Hres i) as [d Hd]; [left|].
    pose proof (Hk _ _ Hd) as Hid.
    set (d' := Drawable.refresh (_projection r) d).
    assert (Hd'id : Drawable._id d' = i) by (unfold d'; by rewrite refresh_id).
    assert (Hst : ∀ j, Drawable.getDrawableByID j (Drawable.store d' cls)
                       = if decide (i = j) then Some d'
                         else Drawable.getDrawableByID j cls).
    { intros j. rewrite lookup_store, Hd'id. case_decide; [|done]. by rewrite Hd. }
    set (cs' := if bool_decide (cs ≠ Some (Drawable.getShader d))
                then Some (Drawable.getShader d) else cs).
    destruct (IH cs' (Drawable.store d' cls)) as (cls' & Hrun & Hfin).
    { by apply store_well_keyed. }
    { done. }
    { intros j Hj. apply store_is_Some, Hres. by right. }
    exists cls'. split.
    + simpl. rewrite Hd. unfold Drawable.getUniforms. simpl.
      fold d'. fold cs'. rewrite Hrun, Hid.
      unfold entries at 2. csimpl. f_equal. f_equal. f_equal.
      unfold entries. apply list_omap_ext, Forall2_same_length_lookup.
      split; [done|]. intros k j1 j2 Hj1 Hj2. rewrite Hj1 in Hj2.
      injection Hj2 as <-. rewrite Hst. case_decide as Hij; [|done].
      subst j1. exfalso. apply Hi. by eapply list_elem_of_lookup_2.
    + intros j. rewrite Hfin, Hst.
      destruct (decide (i = j)) as [<-|Hij].
      * destruct (decide (i ∈ ids)); [done|].
        rewrite decide_True by left. by rewrite Hd.
      * destruct (decide (j ∈ ids)) as [Hj|Hj].
        -- rewrite decide_True by (by right). done.
        -- rewrite decide_False; [done|].
           intros [?|?]%elem_of_cons; [congruence|done].
Qed.

Lemma entries_refreshed p cls cls' ids :
  (∀ i, i ∈ ids →
        Drawable.getDrawableByID i cls'
        = Drawable.refresh p <$> Drawable.getDrawableByID i cls) →
  entries p cls' ids = entries p cls ids.
Proof.
  intros H. unfold entries. apply list_omap_ext, Forall2_same_length_lookup.
  split; [done|]. intros k j1 j2 Hj1 Hj2. rewrite Hj1 in Hj2.
  injection Hj2 as <-. rewrite H by (by eapply list_elem_of_lookup_2).
  destruct (Drawable.getDrawableByID j1 cls) as [d|]; [|done]. simpl.
  by rewrite refresh_refresh, refresh_shader.
Qed.

(** X6.  [draw] changes nothing of the renderer itself, and a frame can be
    drawn again: in every world the renderer can be in, [draw] completes,
    leaves the renderer's own fields and [window] as they were, and a second
    [draw] right after it issues exactly the same calls. *)
Theorem draw_twice_same_frame canvas0 xLeft xRight yBottom yTop
    pixelsWide pixelsTall win calls :
  ∃ w, run calls (RenderWebGL canvas0 xLeft xRight yBottom yTop
                    pixelsWide pixelsTall Drawable.initial win) = Normal w
       ∧ ∃ w', (draw w).2 = Normal w'
               ∧ this w' = this w ∧ window w' = window w
               ∧ (draw w').1 = (draw w).1.
Proof.
  destruct (consistent_run calls _
              (consistent_RenderWebGL canvas0 xLeft xRight yBottom yTop
                 pixelsWide pixelsTall win)) as (w & Hrun & Hc).
  exists w. split; [done|].
  destruct (draw_loop_entries (this w) (window w) (_drawables (this w)) None
              (Drawables w)) as (cls' & Hloop & Hfin).
  { apply Hc. }
  { by apply consistent_NoDup. }
  { intros i. apply (consistent_live w Hc). }
  assert (Hc' : consistent (with_Drawables cls' w)).
  { destruct (draw_consistent w Hc) as (cls'' & es & Hdraw & _ & _ & _ & Hc'').
    unfold draw in Hdraw. rewrite Hloop in Hdraw. simpl in Hdraw.
    by injection Hdraw as _ <-. }
  exists (with_Drawables cls' w).
  split; [unfold draw; by rewrite Hloop|]. split; [done|]. split; [done|].
  destruct (draw_loop_entries (this w) (window w) (_drawables (this w)) None
              cls') as (cls2 & Hloop2 & _).
  { apply Hc'. }
  { by apply consistent_NoDup. }
  { intros i. apply (consistent_live _ Hc'). }
  unfold draw. simpl. rewrite Hloop, Hloop2. simpl.
  rewrite (entries_refreshed (_projection (this w)) (Drawables w) cls'); [done|].
  intros i Hi. rewrite Hfin. by rewrite decide_True.
Qed.

Lemma indexOf_from_appended x l i :
  x ∉ l → indexOf_from x (l ++ [x]) i = (i + Z.of_nat (length l))%Z.
Proof.
  revert i; induction l as [|y l IH]; intros i Hx; simpl.
  - rewrite decide_True by done. lia.
  - apply not_elem_of_cons in Hx as [Hne Hx].
    rewrite decide_False by congruence. rewrite (IH _ Hx). lia.
Qed.

(** X7.  Creating a drawable and destroying it again is a round trip.  In
    every world the renderer can be in, [destroyDrawable] of the id that
    [createDrawable] has just returned succeeds and gives back the renderer
    (draw list included) and the registered drawables exactly as they were
    before the creation; only the source of fresh ids has moved on, so the
    id is not handed out again. *)
Theorem create_then_destroy_restores canvas0 xLeft xRight yBottom yTop
    pixelsWide pixelsTall win calls :
  ∃ w, run calls (RenderWebGL canvas0 xLeft xRight yBottom yTop
                    pixelsWide pixelsTall Drawable.initial win) = Normal w
       ∧ ∃ w2,
           destroyDrawable (createDrawable w).1 (createDrawable w).2
           = Normal (true, w2)
           ∧ this w2 = this w ∧ window w2 = window w
           ∧ Drawable._allDrawables (Drawables w2)
             = Drawable._allDrawables (Drawables w)
           ∧ (createDrawable w).1 < (createDrawable w2).1.
Proof.
  destruct (consistent_run calls _
              (consistent_RenderWebGL canvas0 xLeft xRight yBottom yTop
                 pixelsWide pixelsTall win)) as (w & Hrun & Hc).
  exists w. split; [done|].
  set (n := Drawable._nextDrawableID (Drawables w)).
  assert (Hn : n ∉ _drawables (this w)).
  { intros Hin. pose proof (consistent_fresh w Hc n Hin). unfold n in *. lia. }
  assert (Hnone : Drawable._allDrawables (Drawables w) !! n = None).
  { apply eq_None_not_Some. intros Hs. by apply Hn, (consistent_live w Hc). }
  unfold createDrawable, destroyDrawable. simpl. fold n.
  unfold indexOf. rewrite (indexOf_from_appended _ _ _ Hn), Z.add_0_l.
  rewrite (proj2 (Z.leb_le _ _)) by lia.
  unfold Drawable.getDrawableByID. simpl. fold n. rewrite lookup_insert_eq.
  eexists. split; [reflexivity|]. simpl. split; [|split; [done|split]].
  - unfold splice1. rewrite Nat2Z.id, delete_middle, app_nil_r.
    by destruct (this w).
  - fold n. by rewrite delete_insert_eq, delete_id.
  - lia.
Qed.

Lemma filter_ne_fresh (x : DrawableID) (l : list DrawableID) :
  x ∉ l → filter (λ j, j ≠ x) l = l.
Proof.
  induction l as [|y l IH]; intros Hx; [done|].
  apply not_elem_of_cons in Hx as [Hne Hx].
  rewrite filter_cons_True by congruence. by rewrite IH.
Qed.

Lemma painted_consistent w :
  consistent w → painted (draw w).1 = _drawables (this w).
Proof.
  intros Hc. destruct (draw_consistent w Hc) as (cls' & es & Hdraw & Hids & _).
  rewrite Hdraw. unfold painted. simpl. by rewrite painted_from_frame.
Qed.

(** X8.  What the next frame paints after a drawable is created or
    destroyed.  In every world the renderer can be in, the frame after
    [createDrawable] paints what the frame before would have painted and
    then the new drawable, last and so on top; the frame after
    [destroyDrawable] paints what the frame before would have painted
    without the destroyed drawable, the others in the order they had. *)
Theorem frame_after_create_and_destroy canvas0 xLeft xRight yBottom yTop
    pixelsWide pixelsTall win calls :
  ∃ w, run calls (RenderWebGL canvas0 xLeft xRight yBottom yTop
                    pixelsWide pixelsTall Drawable.initial win) = Normal w
       ∧ painted (draw (createDrawable w).2).1
         = painted (draw w).1 ++ [(createDrawable w).1]
       ∧ ∀ drawableID,
           ∃ b w1, destroyDrawable drawableID w = Normal (b, w1)
                   ∧ painted (draw w1).1
                     = filter (λ j, j ≠ drawableID) (painted (draw w).1).
Proof.
  destruct (consistent_run calls _
              (consistent_RenderWebGL canvas0 xLeft xRight yBottom yTop
                 pixelsWide pixelsTall win)) as (w & Hrun & Hc).
  exists w. split; [done|]. split.
  - rewrite (painted_consistent _ (consistent_createDrawable w Hc)).
    by rewrite (painted_consistent w Hc).
  - intros drawableID. rewrite (painted_consistent w Hc).
    destruct (consistent_destroyDrawable drawableID w Hc) as (b & w1 & Hdes & Hc1).
    exists b, w1. split; [done|]. rewrite (painted_consistent w1 Hc1).
    destruct (decide (drawableID ∈ _drawables (this w))) as [Hin|Hn].
    + destruct (destroyDrawable_listed _ _ Hc Hin)
        as (d & l1 & l2 & _ & _ & Hl & Hn1 & Hn2 & Hdes').
      rewrite Hdes' in Hdes. injection Hdes as _ <-. simpl. rewrite Hl.
      rewrite filter_app, filter_cons_False by (by intros ?).
      by rewrite !filter_ne_fresh.
    + rewrite (destroyDrawable_unlisted _ _ Hn) in Hdes.
      injection Hdes as _ <-. by rewrite filter_ne_fresh.
Qed.

Lemma step_keeps_draw_list c w w' :
  is_lifecycle_call c = false → step c w = Normal w' →
  _drawables (this w') = _drawables (this w).
Proof.
  destruct c; simpl; try done.
  - by intros _ [= <-].
  - by intros _ [= <-].
  - by intros _ [= <-].
  - by intros _ [-> _]%draw_this.
  - intros _. unfold updateDrawableProperties.
    destruct (Drawable.getDrawableByID _ _); by intros [= <-].
Qed.

(** X9.  Only [createDrawable] and [destroyDrawable] change what is
    painted.  In every world the renderer can be in, any other call --
    [setBackgroundColor], [setStageSize], [resize], [draw],
    [updateDrawableProperties] with any id and properties -- completes,
    leaves the draw list as it is, and the frame after it paints the same
    drawables in the same order as the frame before would have. *)
Theorem only_lifecycle_calls_change_painting canvas0 xLeft xRight yBottom yTop
    pixelsWide pixelsTall win calls :
  ∃ w, run calls (RenderWebGL canvas0 xLeft xRight yBottom yTop
                    pixelsWide pixelsTall Drawable.initial win) = Normal w
       ∧ ∀ c, is_lifecycle_call c = false →
              ∃ w', step c w = Normal w'
                    ∧ _drawables (this w') = _drawables (this w)
                    ∧ painted (draw w').1 = painted (draw w).1.
Proof.
  destruct (consistent_run calls _
              (consistent_RenderWebGL canvas0 xLeft xRight yBottom yTop
                 pixelsWide pixelsTall win)) as (w & Hrun & Hc).
  exists w. split; [done|]. intros c Hcall.
  destruct (consistent_step c w Hc) as (w' & Hstep & Hc').
  exists w'. split; [done|].
  pose proof (step_keeps_draw_list c w w' Hcall Hstep) as Hl.
  split; [done|].
  by rewrite (painted_consistent w Hc), (painted_consistent w' Hc').
Qed.

(** Giving drawable 2 of four an effect leaves the four painted in the
    order 0, 1, 2, 3. *)
Lemma update_keeps_painting_example :
  painted (draw (after four_drawables fresh_world)).1 = [0; 1; 2; 3].
Proof.
  destruct (only_lifecycle_calls_change_painting example_canvas undefined
              undefined undefined undefined undefined undefined
              (example_window (num 2%float))
              [call_createDrawable; call_createDrawable; call_createDrawable;
               call_createDrawable])
    as (w & Hrun & Hkeep).
  destruct (Hkeep (call_updateDrawableProperties 2 ghost) eq_refl)
    as (w' & Hstep & _ & Hp).
  assert (Hw : w = after [call_createDrawable; call_createDrawable;
                          call_createDrawable; call_createDrawable] fresh_world).
  { unfold after, fresh_world. by rewrite Hrun. }
  assert (Hw' : w' = after four_drawables fresh_world).
  { subst w. revert Hstep. vm_compute. by intros [= <-]. }
  rewrite <- Hw', Hp, Hw. by vm_compute.
Defined.

Lemma draw_call_count_frame r win currentShader es :
  draw_call_count (frame_calls r win currentShader es) = length es.
Proof.
  revert currentShader; induction es as [|e es IH]; intros cs; [done|].
  simpl. case_bool_decide; simpl; by rewrite IH.
Qed.

Lemma length_frame_calls r win currentShader es :
  length (frame_calls r win currentShader es)
  = 3 * length es + 2 * length (shader_binds (frame_calls r win currentShader es)).
Proof.
  revert currentShader; induction es as [|e es IH]; intros cs; [done|].
  simpl. case_bool_decide; simpl; rewrite IH; lia.
Qed.

(** X10.  The size of a frame.  A renderer that has just been constructed
    draws the five calls of the prologue and nothing else.  In every world
    the renderer can be in, a frame has exactly one draw call for each
    listed drawable, no drawable is painted twice, and the frame has five
    calls, three more for each drawable and two more for each shader
    bind. *)
Theorem frame_size canvas0 xLeft xRight yBottom yTop
    pixelsWide pixelsTall win calls :
  (draw (RenderWebGL canvas0 xLeft xRight yBottom yTop
           pixelsWide pixelsTall Drawable.initial win)).1
  = draw_prologue (this (RenderWebGL canvas0 xLeft xRight yBottom yTop
                           pixelsWide pixelsTall Drawable.initial win))
  ∧ ∃ w, run calls (RenderWebGL canvas0 xLeft xRight yBottom yTop
                      pixelsWide pixelsTall Drawable.initial win) = Normal w
         ∧ draw_call_count (draw w).1 = length (_drawables (this w))
         ∧ NoDup (painted (draw w).1)
         ∧ length (draw w).1
           = 5 + 3 * length (_drawables (this w))
             + 2 * length (shader_binds (draw w).1).
Proof.
  split; [done|].
  destruct (consistent_run calls _
              (consistent_RenderWebGL canvas0 xLeft xRight yBottom yTop
                 pixelsWide pixelsTall win)) as (w & Hrun & Hc).
  exists w. split; [done|].
  rewrite (painted_consistent w Hc).
  destruct (draw_consistent w Hc) as (cls' & es & Hdraw & Hids & _).
  rewrite Hdraw, <- Hids, length_fmap. simpl. split; [|split].
  - apply draw_call_count_frame.
  - rewrite Hids. by apply consistent_NoDup.
  - rewrite length_frame_calls. lia.
Qed.

Lemma changes_length_le prev l : length (changes prev l) ≤ length l.
Proof.
  revert prev; induction l as [|s l IH]; intros prev; simpl; [done|].
  destruct (decide (prev = Some s)); simpl; specialize (IH (Some s)); lia.
Qed.

Lemma changes_all_same X l :
  Forall (λ s, s = X) l → changes (Some X) l = [].
Proof.
  induction 1 as [|s l -> _ IH]; [done|].
  simpl. by rewrite decide_True.
Qed.

(** X11.  What batching buys.  In every world the renderer can be in, a
    frame binds a shader program at most once for each listed drawable, and
    when all listed drawables have the same shader variant it binds that
    program exactly once, however many drawables there are. *)
Theorem one_bind_for_one_variant canvas0 xLeft xRight yBottom yTop
    pixelsWide pixelsTall win calls :
  ∃ w, run calls (RenderWebGL canvas0 xLeft xRight yBottom yTop
                    pixelsWide pixelsTall Drawable.initial win) = Normal w
       ∧ length (shader_binds (draw w).1) ≤ length (_drawables (this w))
       ∧ ∀ X, _drawables (this w) ≠ [] →
              Forall (λ s, s = X) (listed_shaders w) →
              shader_binds (draw w).1 = [Some X].
Proof.
  destruct (consistent_run calls _
              (consistent_RenderWebGL canvas0 xLeft xRight yBottom yTop
                 pixelsWide pixelsTall win)) as (w & Hrun & Hc).
  exists w. split; [done|].
  destruct (draw_consistent w Hc) as (cls' & es & Hdraw & Hids & Hsh & _).
  assert (Hb : shader_binds (draw w).1 = Some <$> changes None (listed_shaders w)).
  { rewrite Hdraw. simpl. by rewrite shader_binds_frame, Hsh. }
  assert (Hlen : length (listed_shaders w) = length (_drawables (this w))).
  { by rewrite <- Hsh, <- Hids, !length_fmap. }
  rewrite Hb, length_fmap. split.
  - rewrite <- Hlen. apply changes_length_le.
  - intros X Hne Hall. destruct (listed_shaders w) as [|s l].
    + destruct (_drawables (this w)); done.
    + apply Forall_cons in Hall as [-> Hall].
      change (changes None (X :: l))
        with (if decide (None = Some X) then changes (Some X) l
              else X :: changes (Some X) l).
      destruct (decide (None = Some X)); [done|].
      by rewrite (changes_all_same X l Hall).
Qed.

(** Three drawables without effects are drawn with a single bind. *)
Lemma one_bind_for_three_plain :
  _drawables (this (after three_plain fresh_world)) = [0; 1; 2]
  ∧ shader_binds (draw (after three_plain fresh_world)).1 = [Some shaderX].
Proof.
  destruct (one_bind_for_one_variant example_canvas undefined undefined
              undefined undefined undefined undefined
              (example_window (num 2%float)) three_plain)
    as (w & Hrun & _ & Hone).
  assert (Hw : w = after three_plain fresh_world).
  { unfold after, fresh_world. by rewrite Hrun. }
  subst w. split; [by vm_compute|]. apply Hone.
  - by vm_compute.
  - assert (Hl : listed_shaders (after three_plain fresh_world)
                 = [shaderX; shaderX; shaderX]) by (by vm_compute).
    rewrite Hl. by repeat constructor.
Defined.

Lemma draw_loop_draws_with r win ids currentShader cls :
  Forall (draws_with (_bufferInfo r)) (draw_loop r win ids currentShader cls).1.
Proof.
  revert currentShader cls. induction ids as [|j ids IH]; intros cs cls;
    [by constructor|].
  simpl. destruct (Drawable.getDrawableByID j cls) as [d|]; [|by constructor].
  unfold Drawable.getUniforms; simpl.
  match goal with
  | |- Forall _ (let '(_, _) := draw_loop ?r ?w ?l ?c ?s in _).1 =>
      specialize (IH c s); destruct (draw_loop r w l c s) as [more out]
  end.
  simpl in *. case_bool_decide; simpl;
    repeat (apply Forall_cons; split; [done|]); exact IH.
Qed.

Lemma step_keeps_quad c w w' :
  step c w = Normal w' →
  _bufferInfo (this w') = _bufferInfo (this w) ∧ window w' = window w.
Proof.
  destruct c; simpl.
  - by intros [= <-].
  - by intros [= <-].
  - by intros [= <-].
  - intros [-> ->]%draw_this. done.
  - by intros [= <-].
  - unfold destroyDrawable. destruct (0 <=? _)%Z; simpl.
    + destruct (Drawable.getDrawableByID _ _); simpl; [|done]. by intros [= <-].
    + by intros [= <-].
  - unfold updateDrawableProperties.
    destruct (Drawable.getDrawableByID _ _); by intros [= <-].
Qed.

(** X12.  Everything is drawn with the one quad.  Whatever calls are made
    on a renderer, it keeps the buffer the constructor built from
    [_createGeometry] -- six vertices, two triangles, with as many texture
    coordinates as positions -- and [window] is left alone; every attribute
    bind and every draw call of a frame names that buffer. *)
Theorem frames_draw_the_quad canvas0 xLeft xRight yBottom yTop
    pixelsWide pixelsTall cls win calls w :
  run calls (RenderWebGL canvas0 xLeft xRight yBottom yTop
               pixelsWide pixelsTall cls win) = Normal w →
  _bufferInfo (this w) = _createGeometry
  ∧ window w = win
  ∧ Forall (draws_with _createGeometry) (draw w).1
  ∧ length (data (a_position _createGeometry))
    = 2 * 3 * numComponents (a_position _createGeometry)
  ∧ length (data (a_texCoord _createGeometry))
    = 2 * 3 * numComponents (a_texCoord _createGeometry).
Proof.
  assert (Hrun : ∀ cs w0 w1, run cs w0 = Normal w1 →
                 _bufferInfo (this w1) = _bufferInfo (this w0)
                 ∧ window w1 = window w0).
  { induction cs as [|c cs IH]; intros w0 w1; simpl.
    - by intros [= <-].
    - destruct (step c w0) as [w0'|] eqn:Hstep; simpl; [|done].
      intros Hcs. destruct (IH _ _ Hcs) as [-> ->].
      exact (step_keeps_quad c w0 w0' Hstep). }
  intros H. destruct (Hrun _ _ _ H) as [Hb Hw]. simpl in Hb, Hw.
  split; [done|]. split; [done|]. split; [|done].
  rewrite <- Hb. unfold draw.
  pose proof (draw_loop_draws_with (this w) (window w) (_drawables (this w))
                None (Drawables w)) as Hloop.
  destruct (draw_loop _ _ _ _ _) as [cs out]. simpl in *.
  repeat (apply Forall_cons; split; [done|]). exact Hloop.
Qed.

(** The frame after four drawables were created and one updated names the
    quad in every bind and draw call. *)
Lemma frames_draw_the_quad_example :
  run four_drawables fresh_world = Normal (after four_drawables fresh_world)
  ∧ Forall (draws_with _createGeometry)
      (draw (after four_drawables fresh_world)).1.
Proof.
  assert (Hrun : run four_drawables fresh_world
                 = Normal (after four_drawables fresh_world)) by (by vm_compute).
  split; [exact Hrun|].
  destruct (frames_draw_the_quad example_canvas undefined undefined
              undefined undefined undefined undefined Drawable.initial
              (example_window (num 2%float)) four_drawables _ Hrun)
    as (_ & _ & Hall & _).
  exact Hall.
Defined.
